(** * The product catalog repository (internal/repository/repository.go)

    A shallow embedding of the Redis-backed repository: products are stored
    as marshalled records under ["product:" ++ ID], an optional RediSearch
    index mirrors them, a seeding engine grows the catalog at start-up and a
    verification routine checks the result.

    The repository file exists in two revisions that differ only in the
    seeding engine and in the verification routine: the one with
    [targetSeedProducts = 100000] is embedded in [Module Large], the one with
    [minSeedProducts = 5] in [Module Small].  [CreateProduct], [GetProduct]
    and [ListProducts] are the same in both and are embedded once, and so
    is the constructor [NewRedisRepository], which takes the seeding and the
    verification of the revision as arguments.

    The handlers of the gRPC server (internal/server/server.go) are embedded
    in [Module server], over the messages of [Module proto].

    Conventions.
    - [int32] values are integers in [Z]; every [int32] operation of the code
      is followed by [wrap32].  [int] is taken to be 64 bits wide, so that no
      [int] operation of this file overflows.
    - [float64] is the binary64 format of [SpecFloat].
    - Redis, the RediSearch index, the wall clock and gofakeit are
      collaborators: the [World] holds the store contents and, for each
      collaborator, the tape of its coming answers.
    - encoding/json and strings.ToLower are taken as the operations of the
      class [GoLib]. *)

From Stdlib Require Import ZArith Lia SpecFloat Ascii String.
From stdpp Require Import base option list strings pretty gmap sets.

#[local] Open Scope Z_scope.

(** ** Go values *)

Definition wrap32 (z : Z) : Z := (z + 2 ^ 31) mod 2 ^ 32 - 2 ^ 31.

Definition float64 : Type := spec_float.

#[global] Instance float64_eq_dec : EqDecision float64.
Proof. unfold float64. solve_decision. Defined.

(** [float64(n)] for an integer [n]. *)
Definition f64_of_int (n : Z) : float64 := binary_normalize 53 1024 n 0 false.

(** The constant written [digits / 10^scale] in decimal, e.g.
    [f64_lit 129999 2] for [1299.99]. *)
Definition f64_lit (digits scale : Z) : float64 :=
  SFdiv 53 1024 (f64_of_int digits) (f64_of_int (10 ^ scale)).

Definition f64_add (x y : float64) : float64 := SFadd 53 1024 x y.

(** [time.Time], as nanoseconds since the Unix epoch.  The zero [Time] is
    January 1 of year 1, 00:00 UTC. *)
Definition Time : Type := Z.

Definition zeroTime : Time := -62135596800 * 10 ^ 9.

Definition IsZero (t : Time) : bool := bool_decide (t = zeroTime).

Definition UnixNano (t : Time) : Z := t.

(** ** Strings *)

Fixpoint string_drop (n : nat) (s : string) : string :=
  match n, s with
  | O, _ => s
  | S n', String _ s' => string_drop n' s'
  | S _, EmptyString => EmptyString
  end.

(** strings.TrimPrefix *)
Definition TrimPrefix (s pre : string) : string :=
  if String.prefix pre s then string_drop (String.length pre) s else s.

(** strings.Contains *)
Fixpoint Contains (s substr : string) : bool :=
  String.prefix substr s ||
  match s with
  | EmptyString => false
  | String _ s' => Contains s' substr
  end.

(** [strings.ReplaceAll(s, "-", "")] *)
Fixpoint remove_dashes (s : string) : string :=
  match s with
  | EmptyString => EmptyString
  | String c s' =>
      if bool_decide (c = "-"%char) then remove_dashes s'
      else String c (remove_dashes s')
  end.

Definition nonempty (s : string) : bool := negb (bool_decide (s = "")).

(** ** Errors *)

Inductive error : Type :=
| redis_Nil                              (* redis.Nil *)
| Foreign (msg : string)                 (* raised by a collaborator *)
| Errorf (msg : string)                  (* fmt.Errorf without %w *)
| Wrapf (msg : string) (cause : error).  (* fmt.Errorf("msg: %w", cause) *)

#[global] Instance error_eq_dec : EqDecision error.
Proof. solve_decision. Defined.

(** errors.Is *)
Fixpoint errors_Is (err target : error) : bool :=
  bool_decide (err = target) ||
  match err with
  | Wrapf _ cause => errors_Is cause target
  | _ => false
  end.

(** err.Error() *)
Fixpoint Error (e : error) : string :=
  match e with
  | redis_Nil => "redis: nil"
  | Foreign msg => msg
  | Errorf msg => msg
  | Wrapf msg cause => msg +:+ Error cause
  end.

(** What a call yields: a value, an error, or a run-time panic. *)
Inductive result (A : Type) : Type :=
| Ok (a : A)
| Err (e : error)
| Panic (msg : string)
| Unfinished.   (* the tape of gofakeit draws ended before the loop did *)

Arguments Ok {A} a.
Arguments Err {A} e.
Arguments Panic {A} msg.
Arguments Unfinished {A}.

(** ** Products *)

Record Product : Type := mkProduct {
  ID : string;
  Name : string;
  Description : string;
  Price : float64;
  Category : string;
  Stock : Z;
  CreatedAt : Time;
}.

#[global] Instance Product_eq_dec : EqDecision Product.
Proof. solve_decision. Defined.

Definition with_ID (id : string) (p : Product) : Product :=
  mkProduct id (Name p) (Description p) (Price p) (Category p) (Stock p)
    (CreatedAt p).

Definition with_CreatedAt (t : Time) (p : Product) : Product :=
  mkProduct (ID p) (Name p) (Description p) (Price p) (Category p) (Stock p) t.

(** encoding/json for [Product], and strings.ToLower. *)
Class GoLib : Type := {
  Marshal : Product → error + string;
  Unmarshal : string → error + Product;
  ToLower : string → string;
}.

(** What the round trip through the store needs of encoding/json. *)
Class GoLibLaws `{GoLib} : Prop := {
  Unmarshal_Marshal p data : Marshal p = inr data → Unmarshal data = inr p;
}.

Definition productsKeyPrefix : string := "product:".
Definition defaultIndexName : string := "products-index".

Definition seedProducts : list Product := [
  mkProduct "seed-1" "Laptop Pro 15"
    "High-performance laptop with 16GB RAM and 512GB SSD"
    (f64_lit 129999 2) "Electronics" 50 zeroTime;
  mkProduct "seed-2" "Wireless Mouse"
    "Ergonomic wireless mouse with long battery life"
    (f64_lit 2999 2) "Electronics" 200 zeroTime;
  mkProduct "seed-3" "Office Chair"
    "Comfortable ergonomic office chair with lumbar support"
    (f64_lit 19999 2) "Furniture" 30 zeroTime;
  mkProduct "seed-4" "Coffee Maker"
    "Automatic drip coffee maker with programmable timer"
    (f64_lit 7999 2) "Appliances" 75 zeroTime;
  mkProduct "seed-5" "Running Shoes"
    "Lightweight running shoes with breathable mesh"
    (f64_lit 8999 2) "Sports" 120 zeroTime
].

(** ** The world *)

Inductive Level : Type := LDebug | LInfo | LWarn.

Inductive Call : Type :=
| CallCreateProduct (id : string)
| CallGetProduct (id : string)
| CallListProducts (page pageSize : Z) (category searchQuery : string).

(** What the repository did, newest first: the calls of its exported
    methods, the commands it sent to Redis and to the index, and the lines
    it logged. *)
Inductive Event : Type :=
| Invoke (c : Call)
| RedisSET (key data : string)
| RedisGET (key : string)
| RedisKEYS (pattern : string)
| RedisSCAN (pattern : string) (count : Z)
| IndexAdd (key : string) (doc : Product)
| IndexSearch (query sortBy : string) (ascending : bool) (offset limit : Z)
| Log (lvl : Level) (msg : string).

#[global] Instance Call_eq_dec : EqDecision Call.
Proof. solve_decision. Defined.

#[global] Instance Level_eq_dec : EqDecision Level.
Proof. solve_decision. Defined.

#[global] Instance Event_eq_dec : EqDecision Event.
Proof. solve_decision. Defined.

(** One round of gofakeit draws of the large seeding loop: the UUID and the
    fields of the product generated when that UUID is new. *)
Record Draw : Type := mkDraw {
  d_uuid : string;
  d_name : string;
  d_description : string;
  d_price : float64;
  d_category : nat;
  d_stock : nat;
}.

Record World : Type := mkWorld {
  redis : gmap string string;          (* the store: key to bytes *)
  redis_faults : list (option error);  (* per coming command: its failure *)
  index_faults : list (option error);  (* per coming index write *)
  search_replies : list (error + (list string * Z)); (* per coming search *)
  clock : nat → Time;                  (* successive readings of time.Now *)
  ticks : nat;                         (* readings taken so far *)
  draws : list Draw;                   (* coming gofakeit rounds *)
  trace : list Event;
}.

Definition set_redis (m : gmap string string) (w : World) : World :=
  mkWorld m (redis_faults w) (index_faults w) (search_replies w) (clock w)
    (ticks w) (draws w) (trace w).

Definition set_redis_faults (l : list (option error)) (w : World) : World :=
  mkWorld (redis w) l (index_faults w) (search_replies w) (clock w) (ticks w)
    (draws w) (trace w).

Definition set_index_faults (l : list (option error)) (w : World) : World :=
  mkWorld (redis w) (redis_faults w) l (search_replies w) (clock w) (ticks w)
    (draws w) (trace w).

Definition set_search_replies (l : list (error + (list string * Z)))
    (w : World) : World :=
  mkWorld (redis w) (redis_faults w) (index_faults w) l (clock w) (ticks w)
    (draws w) (trace w).

Definition set_ticks (n : nat) (w : World) : World :=
  mkWorld (redis w) (redis_faults w) (index_faults w) (search_replies w)
    (clock w) n (draws w) (trace w).

Definition set_draws (l : list Draw) (w : World) : World :=
  mkWorld (redis w) (redis_faults w) (index_faults w) (search_replies w)
    (clock w) (ticks w) l (trace w).

Definition set_trace (l : list Event) (w : World) : World :=
  mkWorld (redis w) (redis_faults w) (index_faults w) (search_replies w)
    (clock w) (ticks w) (draws w) l.

(** Computations that read and change the world. *)
Definition M (A : Type) : Type := World → A * World.

Definition ret {A} (a : A) : M A := λ w, (a, w).

Definition bind {A B} (m : M A) (k : A → M B) : M B :=
  λ w, let (a, w') := m w in k a w'.

Notation "'let*' x ':=' m 'in' k" := (bind m (λ x, k))
  (at level 10, x name, m at level 100, k at level 200).

Notation "m ';;' k" := (bind m (λ _, k))
  (at level 100, k at level 200, right associativity).

Definition emit (e : Event) : M unit :=
  λ w, (tt, set_trace (e :: trace w) w).

Definition log (lvl : Level) (msg : string) : M unit := emit (Log lvl msg).

(** time.Now() *)
Definition time_Now : M Time :=
  λ w, (clock w (ticks w), set_ticks (S (ticks w)) w).

(** The transport outcome of the next Redis command; an exhausted tape
    means that no further command fails. *)
Definition next_fault : M (option error) :=
  λ w, match redis_faults w with
       | [] => (None, w)
       | f :: rest => (f, set_redis_faults rest w)
       end.

(** client.Set(ctx, key, data, 0).Err(): a command that fails leaves the
    store as it was. *)
Definition redis_Set (key data : string) : M (option error) :=
  emit (RedisSET key data) ;;
  let* f := next_fault in
  match f with
  | Some e => ret (Some e)
  | None => λ w, (None, set_redis (<[key := data]> (redis w)) w)
  end.

(** client.Get(ctx, key).Result(): a missing key is the error [redis_Nil]. *)
Definition redis_Get (key : string) : M (error + string) :=
  emit (RedisGET key) ;;
  let* f := next_fault in
  match f with
  | Some e => ret (inl e)
  | None => λ w, (match redis w !! key with
                  | Some data => inr data
                  | None => inl redis_Nil
                  end, w)
  end.

(** The keys of the store that match the glob [pre ++ "*"]. *)
Definition keys_matching (pre : string) (m : gmap string string) : list string :=
  filter (λ k, String.prefix pre k = true) (map_to_list m).*1.

(** client.Keys(ctx, pre+"*").Result() *)
Definition redis_Keys (pre : string) : M (error + list string) :=
  emit (RedisKEYS (pre +:+ "*")) ;;
  let* f := next_fault in
  match f with
  | Some e => ret (inl e)
  | None => λ w, (inr (keys_matching pre (redis w)), w)
  end.

(** The replies of the server to a cursor-driven SCAN over [keys] that asks
    for [n] keys a time: the keys in batches, the last batch being the one
    that comes with cursor 0. *)
Fixpoint chunks (fuel n : nat) (keys : list string) : list (list string) :=
  match fuel with
  | O => [keys]
  | S fuel' =>
      if bool_decide (length keys ≤ n)%nat then [keys]
      else take n keys :: chunks fuel' n (drop n keys)
  end.

Definition scan_batches (pre : string) (count : Z) (m : gmap string string)
    : list (list string) :=
  let keys := keys_matching pre m in
  chunks (length keys) (Z.to_nat count) keys.

(** One [client.Scan(ctx, cursor, pre+"*", count)] round trip; the keys it
    brings are the next batch of [scan_batches]. *)
Definition redis_Scan (pre : string) (count : Z) : M (option error) :=
  emit (RedisSCAN (pre +:+ "*") count) ;; next_fault.

(** The index client: [r.search.Index(doc)] and [r.search.Search(query)].
    An exhausted tape of index outcomes means that no further write fails;
    an exhausted tape of search replies means an empty result. *)
Definition search_Index (key : string) (doc : Product) : M (option error) :=
  emit (IndexAdd key doc) ;;
  λ w, match index_faults w with
       | [] => (None, w)
       | f :: rest => (f, set_index_faults rest w)
       end.

Definition search_Search (query sortBy : string) (ascending : bool)
    (offset limit : Z) : M (error + (list string * Z)) :=
  emit (IndexSearch query sortBy ascending offset limit) ;;
  λ w, match search_replies w with
       | [] => (inr ([], 0), w)
       | r :: rest => (r, set_search_replies rest w)
       end.

(** ** The repository *)

Record RedisRepository : Type := mkRepo {
  search : option string;   (* the index client, [None] for nil *)
  indexName : string;
  searchEnabled : bool;
}.

Definition keyFor (id : string) : string := productsKeyPrefix +:+ id.

(** [l[lo:hi]]: Go panics unless [0 <= lo <= hi <= cap(l)].  The one slice
    expression of the code has [hi <= len(l)], so the length stands for the
    capacity here. *)
Definition slice {A} (l : list A) (lo hi : Z) : result (list A) :=
  if bool_decide (0 ≤ lo ∧ lo ≤ hi ∧ hi ≤ Z.of_nat (length l))
  then Ok (take (Z.to_nat (hi - lo)) (drop (Z.to_nat lo) l))
  else Panic "slice bounds out of range".

Section Repository.
Context `{GoLib}.
Variable r : RedisRepository.

Definition useIndex : bool := searchEnabled r && bool_decide (search r ≠ None).

Definition CreateProduct (product : Product) : M (Product * option error) :=
  emit (Invoke (CallCreateProduct (ID product))) ;;
  let* product :=
    (if bool_decide (ID product = "")
     then let* t := time_Now in ret (with_ID (pretty (UnixNano t)) product)
     else ret product) in
  let* product :=
    (if IsZero (CreatedAt product)
     then let* t := time_Now in ret (with_CreatedAt t product)
     else ret product) in
  let key := keyFor (ID product) in
  match Marshal product with
  | inl err => ret (product, Some (Wrapf "failed to marshal product: " err))
  | inr data =>
      let* e := redis_Set key data in
      match e with
      | Some err => ret (product, Some (Wrapf "failed to set product: " err))
      | None =>
          (if useIndex
           then let* ie := search_Index key product in
                match ie with
                | Some _ => log LWarn "Failed to index product"
                | None => ret tt
                end
           else ret tt) ;;
          ret (product, None)
      end
  end.

Definition GetProduct (id : string) : M (result Product) :=
  emit (Invoke (CallGetProduct id)) ;;
  let key := keyFor id in
  let* got := redis_Get key in
  match got with
  | inl err =>
      if errors_Is err redis_Nil
      then ret (Err (Errorf ("product not found: " +:+ id)))
      else ret (Err (Wrapf "failed to get product: " err))
  | inr data =>
      match Unmarshal data with
      | inl err => ret (Err (Wrapf "failed to unmarshal product: " err))
      | inr product => ret (Ok product)
      end
  end.

(** The loop of the indexed path: fetch every matched document from the
    store, skipping those that cannot be read or decoded. *)
Fixpoint fetch_docs (docs : list string) (products : list Product)
    : M (list Product) :=
  match docs with
  | [] => ret products
  | doc :: rest =>
      let* got := redis_Get doc in
      match got with
      | inl _ => log LWarn "Failed to get product" ;; fetch_docs rest products
      | inr data =>
          match Unmarshal data with
          | inl _ =>
              log LWarn "Failed to unmarshal product" ;;
              fetch_docs rest products
          | inr product => fetch_docs rest (products ++ [product])
          end
      end
  end.

(** The loop of the scan path over [allKeys]. *)
Fixpoint scan_filter (category searchQuery searchQueryLower : string)
    (allKeys : list string) (filtered : list Product) : M (list Product) :=
  match allKeys with
  | [] => ret filtered
  | key :: rest =>
      let* got := redis_Get key in
      match got with
      | inl _ =>
          log LWarn "Failed to get product" ;;
          scan_filter category searchQuery searchQueryLower rest filtered
      | inr data =>
          match Unmarshal data with
          | inl _ =>
              log LWarn "Failed to unmarshal product" ;;
              scan_filter category searchQuery searchQueryLower rest filtered
          | inr product =>
              if nonempty category
                 && negb (bool_decide (Category product = category))
              then scan_filter category searchQuery searchQueryLower rest
                     filtered
              else
                if nonempty searchQuery
                   && (let nameMatch :=
                         Contains (ToLower (Name product)) searchQueryLower in
                       let descMatch :=
                         Contains (ToLower (Description product))
                           searchQueryLower in
                       negb nameMatch && negb descMatch)
                then scan_filter category searchQuery searchQueryLower rest
                       filtered
                else scan_filter category searchQuery searchQueryLower rest
                       (filtered ++ [product])
          end
      end
  end.

(** The end of the scan path: the total, the defaults and the page. *)
Definition ListProducts_page (filtered : list Product) (page pageSize : Z)
    : result (list Product * Z) :=
  let total := wrap32 (Z.of_nat (length filtered)) in
  if bool_decide (total = 0) then Ok ([], 0)
  else
    let page := if bool_decide (page < 1) then 1 else page in
    let pageSize := if bool_decide (pageSize ≤ 0) then 10 else pageSize in
    let start := wrap32 (wrap32 (page - 1) * pageSize) in
    if bool_decide (Z.of_nat (length filtered) ≤ start) then Ok ([], total)
    else
      let end_ := start + pageSize in
      let end_ :=
        if bool_decide (Z.of_nat (length filtered) < end_)
        then Z.of_nat (length filtered) else end_ in
      match slice filtered start end_ with
      | Ok products => Ok (products, total)
      | Err e => Err e
      | Panic msg => Panic msg
      | Unfinished => Unfinished
      end.

Definition ListProducts (page pageSize : Z) (category searchQuery : string)
    : M (result (list Product * Z)) :=
  emit (Invoke (CallListProducts page pageSize category searchQuery)) ;;
  let useSearch := nonempty searchQuery && useIndex in
  if useSearch then
    let query :=
      if nonempty category
      then searchQuery +:+ " @category:{" +:+ category +:+ "}"
      else searchQuery in
    let* found :=
      search_Search query "price" false
        (wrap32 (wrap32 (page - 1) * pageSize)) pageSize in
    match found with
    | inl err => ret (Err (Wrapf "search failed: " err))
    | inr (docs, totalResults) =>
        let* products := fetch_docs docs [] in
        ret (Ok (products, wrap32 totalResults))
    end
  else
    let* listed := redis_Keys productsKeyPrefix in
    match listed with
    | inl err => ret (Err (Wrapf "failed to get keys: " err))
    | inr allKeys =>
        let searchQueryLower := ToLower searchQuery in
        let* filtered :=
          scan_filter category searchQuery searchQueryLower allKeys [] in
        ret (ListProducts_page filtered page pageSize)
    end.

(** [for _, product := range seedProducts { ... }], the loop over the base
    records of both revisions of [seedData]; [failure] is the text of the
    error that the revision returns. *)
Fixpoint seed_base (failure : string) (products : list Product)
    (existing : gset string) : M (result (gset string)) :=
  match products with
  | [] => ret (Ok existing)
  | product :: rest =>
      if bool_decide (ID product ∈ existing)
      then seed_base failure rest existing
      else
        let* seed :=
          (if IsZero (CreatedAt product)
           then let* t := time_Now in ret (with_CreatedAt t product)
           else ret product) in
        let* created := CreateProduct seed in
        match created with
        | (_, Some err) =>
            ret (Err (Wrapf (failure +:+ ID product +:+ ": ") err))
        | (seed, None) => seed_base failure rest ({[ID seed]} ∪ existing)
        end
  end.

End Repository.

(** ** The revision that seeds a large catalog *)

Module Large.

Definition targetSeedProducts : Z := 100000.
Definition seedScanBatchSize : Z := 1000.

Definition seedCategories : list string := [
  "Electronics"; "Home"; "Sports"; "Outdoors"; "Health"; "Beauty";
  "Automotive"; "Toys"; "Books"
].

Section Defs.
Context `{GoLib}.
Variable r : RedisRepository.

(** [for { keys, nextCursor, err := Scan(...); ...; if cursor == 0 { break } }],
    over the batches the server still has to send. *)
Fixpoint collect_loop (batches : list (list string)) (existing : gset string)
    : M (result (gset string)) :=
  match batches with
  | [] => ret (Ok existing)
  | keys :: rest =>
      let* f := redis_Scan productsKeyPrefix seedScanBatchSize in
      match f with
      | Some err => ret (Err (Wrapf "failed to scan product keys: " err))
      | None =>
          collect_loop rest
            (foldl (λ acc key, {[TrimPrefix key productsKeyPrefix]} ∪ acc)
               existing keys)
      end
  end.

Definition collectExistingProductIDs : M (result (gset string)) :=
  λ w, collect_loop
         (scan_batches productsKeyPrefix seedScanBatchSize (redis w)) ∅ w.

Fixpoint count_loop (shortCircuitAt : Z) (batches : list (list string))
    (total : Z) : M (result Z) :=
  match batches with
  | [] => ret (Ok total)
  | keys :: rest =>
      let* f := redis_Scan productsKeyPrefix seedScanBatchSize in
      match f with
      | Some err => ret (Err (Wrapf "failed to scan product keys: " err))
      | None =>
          let total := total + Z.of_nat (length keys) in
          if bool_decide (0 < shortCircuitAt)
             && bool_decide (shortCircuitAt ≤ total)
          then ret (Ok total)
          else count_loop shortCircuitAt rest total
      end
  end.

Definition countProducts (shortCircuitAt : Z) : M (result Z) :=
  λ w, count_loop shortCircuitAt
         (scan_batches productsKeyPrefix seedScanBatchSize (redis w)) 0 w.

Fixpoint sample_loop (batches : list (list string)) : M (result string) :=
  match batches with
  | [] => ret (Ok "")
  | keys :: rest =>
      let* f := redis_Scan productsKeyPrefix seedScanBatchSize in
      match f with
      | Some err =>
          ret (Err (Wrapf "failed to scan for sample product: " err))
      | None =>
          match keys with
          | key :: _ => ret (Ok (TrimPrefix key productsKeyPrefix))
          | [] => sample_loop rest
          end
      end
  end.

Definition sampleProductID : M (result string) :=
  λ w, sample_loop
         (scan_batches productsKeyPrefix seedScanBatchSize (redis w)) w.

Section WithTarget.
Variable target : Z.

(** [for len(existing) < target { ... }]: every round takes the next
    gofakeit draw [d] of the tape [ds]. *)
Fixpoint seed_generate (ds : list Draw) (existing : gset string)
    : M (result (gset string)) :=
  if bool_decide (target ≤ Z.of_nat (size existing)) then ret (Ok existing)
  else
    match ds with
    | [] => ret Unfinished
    | d :: rest =>
        (λ w, (tt, set_draws rest w)) ;;
        let id := "seed-" +:+ remove_dashes (d_uuid d) in
        if bool_decide (id ∈ existing) then seed_generate rest existing
        else
          let* now := time_Now in
          let product :=
            mkProduct id (d_name d) (d_description d) (d_price d)
              (nth (d_category d mod length seedCategories) seedCategories "")
              (wrap32 (Z.of_nat (d_stock d mod 1001))) now in
          let* created := CreateProduct r product in
          match created with
          | (_, Some err) =>
              ret (Err (Wrapf ("failed to seed product " +:+ id +:+ ": ") err))
          | (_, None) =>
              let existing := {[id]} ∪ existing in
              (if bool_decide (Z.of_nat (size existing) mod 10000 = 0)
               then log LInfo "Seeding products" else ret tt) ;;
              seed_generate rest existing
          end
    end.

Definition seedData_to : M (result unit) :=
  let* collected := collectExistingProductIDs in
  match collected with
  | Ok existing =>
      if bool_decide (target ≤ Z.of_nat (size existing))
      then log LInfo "Product catalog already seeded" ;; ret (Ok tt)
      else
        let* based := seed_base r "failed to seed base product " seedProducts existing in
        match based with
        | Ok existing =>
            if bool_decide (target ≤ Z.of_nat (size existing))
            then log LInfo "Ensured product seed data present" ;; ret (Ok tt)
            else
              time_Now ;;   (* gofakeit.Seed(time.Now().UnixNano()) *)
              let* generated :=
                (λ w, seed_generate (draws w) existing w) in
              match generated with
              | Ok _ =>
                  log LInfo "Ensured product seed data present" ;; ret (Ok tt)
              | Err err => ret (Err err)
              | Panic msg => ret (Panic msg)
              | Unfinished => ret Unfinished
              end
        | Err err => ret (Err err)
        | Panic msg => ret (Panic msg)
        | Unfinished => ret Unfinished
        end
  | Err err => ret (Err err)
  | Panic msg => ret (Panic msg)
  | Unfinished => ret Unfinished
  end.

Definition verifySeedData_to : M (result unit) :=
  let* counted := countProducts target in
  match counted with
  | Ok total =>
      if bool_decide (total < target)
      then ret (Err (Errorf ("insufficient seed data: have " +:+ pretty total
                             +:+ " products, expected at least "
                             +:+ pretty target)))
      else
        let* sampled := sampleProductID in
        match sampled with
        | Ok sampleID =>
            if bool_decide (sampleID = "")
            then ret (Err (Errorf "no products found after seeding"))
            else
              let* got := GetProduct sampleID in
              match got with
              | Ok _ => log LInfo "Verified product catalog" ;; ret (Ok tt)
              | Err err =>
                  ret (Err (Wrapf ("failed to retrieve sample product "
                                   +:+ sampleID +:+ ": ") err))
              | Panic msg => ret (Panic msg)
              | Unfinished => ret Unfinished
              end
        | Err err => ret (Err err)
        | Panic msg => ret (Panic msg)
        | Unfinished => ret Unfinished
        end
  | Err err => ret (Err err)
  | Panic msg => ret (Panic msg)
  | Unfinished => ret Unfinished
  end.

End WithTarget.

Definition seedData : M (result unit) := seedData_to targetSeedProducts.
Definition verifySeedData : M (result unit) :=
  verifySeedData_to targetSeedProducts.

End Defs.
End Large.

(** ** The revision that seeds a small catalog *)

Module Small.

Definition minSeedProducts : Z := 5.

Section Defs.
Context `{GoLib}.
Variable r : RedisRepository.

Section WithMinimum.
Variable minSeed : Z.

(** [for count < minSeed { ... }]: [count] grows by one in every round, so
    the loop makes [rounds = minSeed - count] rounds. *)
Fixpoint seed_auto (rounds : nat) (count : Z) (existing : gset string)
    : M (result (gset string * Z)) :=
  match rounds with
  | O => ret (Ok (existing, count))
  | S rounds' =>
      let id := "seed-auto-" +:+ pretty (count + 1) in
      if bool_decide (id ∈ existing)
      then seed_auto rounds' (count + 1) existing
      else
        let* now := time_Now in
        let product :=
          mkProduct id ("Sample Product " +:+ pretty (count + 1))
            "Automatically generated sample product"
            (f64_add (f64_lit 4999 2) (f64_of_int count)) "Sample"
            (wrap32 (20 + wrap32 count)) now in
        let* created := CreateProduct r product in
        match created with
        | (_, Some err) =>
            ret (Err (Wrapf ("failed to auto-seed product " +:+ id +:+ ": ")
                        err))
        | (_, None) => seed_auto rounds' (count + 1) ({[id]} ∪ existing)
        end
  end.

Definition seedData_to : M (result unit) :=
  let* listed := redis_Keys productsKeyPrefix in
  match listed with
  | inl err => ret (Err (Wrapf "failed to list product keys: " err))
  | inr keys =>
      let existing :=
        foldl (λ acc key, {[TrimPrefix key productsKeyPrefix]} ∪ acc) ∅ keys in
      let* based := seed_base r "failed to seed product " seedProducts existing in
      match based with
      | Ok existing =>
          let count := Z.of_nat (size existing) in
          let* filled :=
            seed_auto (Z.to_nat (minSeed - count)) count existing in
          match filled with
          | Ok _ =>
              log LInfo "Ensured product seed data present" ;; ret (Ok tt)
          | Err err => ret (Err err)
          | Panic msg => ret (Panic msg)
          | Unfinished => ret Unfinished
          end
      | Err err => ret (Err err)
      | Panic msg => ret (Panic msg)
      | Unfinished => ret Unfinished
      end
  end.

Definition verifySeedData_to : M (result unit) :=
  let* listed := ListProducts r 1 (wrap32 minSeed) "" "" in
  match listed with
  | Ok (products, total) =>
      if bool_decide (total < wrap32 minSeed)
      then ret (Err (Errorf ("insufficient seed data: have " +:+ pretty total
                             +:+ " products, expected at least "
                             +:+ pretty minSeed)))
      else
        if bool_decide (length products = 0%nat)
        then ret (Err (Errorf "products list empty after seeding"))
        else log LInfo "Verified product catalog" ;; ret (Ok tt)
  | Err err => ret (Err (Wrapf "failed to verify products listing: " err))
  | Panic msg => ret (Panic msg)
  | Unfinished => ret Unfinished
  end.

End WithMinimum.

Definition seedData : M (result unit) := seedData_to minSeedProducts.
Definition verifySeedData : M (result unit) :=
  verifySeedData_to minSeedProducts.

End Defs.
End Small.

(** ** Instances to run the definitions on *)

(** strings.ToLower on ASCII text. *)
Definition ascii_lower (c : ascii) : ascii :=
  let n := nat_of_ascii c in
  if bool_decide (65 ≤ n ≤ 90)%nat then ascii_of_nat (n + 32) else c.

Fixpoint lower (s : string) : string :=
  match s with
  | EmptyString => EmptyString
  | String c s' => String (ascii_lower c) (lower s')
  end.

(** A codec for a fixed book of products: a product is encoded as its
    position in the book, written as that many strokes; a product outside
    the book cannot be encoded. *)
Fixpoint strokes (n : nat) : string :=
  match n with
  | O => EmptyString
  | S n' => String "|" (strokes n')
  end.

Definition book_Marshal (book : list Product) (p : Product) : error + string :=
  match list_find (λ q, q = p) book with
  | Some (i, _) => inr (strokes i)
  | None => inl (Foreign "json: unsupported value")
  end.

Definition book_Unmarshal (book : list Product) (data : string)
    : error + Product :=
  match book !! String.length data with
  | Some p => inr p
  | None => inl (Foreign "json: cannot unmarshal")
  end.

Definition book_lib (book : list Product) : GoLib :=
  {| Marshal := book_Marshal book;
     Unmarshal := book_Unmarshal book;
     ToLower := lower |}.

Definition t0 : Time := 1700000000 * 10 ^ 9.

(** The base records as seeding writes them when every clock reading is
    [t0], and two further records. *)
Definition mug : Product :=
  mkProduct "42" "Mug" "Stoneware mug" (f64_lit 950 2) "Home" 7 t0.

Definition mug' : Product :=
  mkProduct "42" "Mug XL" "Large stoneware mug" (f64_lit 1250 2) "Home" 3 t0.

(** A record that a caller created under an ID of its own. *)
Definition foreign (id : string) : Product :=
  mkProduct id ("Item " +:+ id) "A record of the caller" (f64_lit 100 2)
    "Misc" 1 t0.

Definition book : list Product :=
  (with_CreatedAt t0 <$> seedProducts) ++ [mug; mug']
  ++ (foreign <$> ["a"; "b"; "c"; "d"; "e"]).

Definition lib0 : GoLib := book_lib book.

Definition withIndex : RedisRepository :=
  mkRepo (Some "localhost:6379") defaultIndexName true.

Definition withoutIndex : RedisRepository := mkRepo None defaultIndexName false.

(** A record that comes without an ID and without a time stamp, and the
    book that holds it as the clock of [calm] stamps it. *)
Definition nameless : Product :=
  with_ID "" (with_CreatedAt zeroTime (foreign "")).

Definition shelf : list Product := [with_ID "1700000000000000000" (foreign "")].

(** A world with the given store, no coming failure and a clock stuck at
    [t0]. *)
Definition calm (m : gmap string string) : World :=
  mkWorld m [] [] [] (λ _, t0) 0 [] [].

(** Five records under IDs of the callers' own. *)
Definition five_foreign : gmap string string :=
  list_to_map [("product:a", strokes 7); ("product:b", strokes 8);
               ("product:c", strokes 9); ("product:d", strokes 10);
               ("product:e", strokes 11)].

Definition mug_only : gmap string string := {[ "product:42" := strokes 5 ]}.

(** The SET commands of a trace, oldest first. *)
Definition writes (tr : list Event) : list (string * string) :=
  rev (omap (λ e, match e with RedisSET k d => Some (k, d) | _ => None end) tr).

(** The result and the final world of a computation. *)
Definition eval {A} (m : M A) (w : World) : A := (m w).1.
Definition exec {A} (m : M A) (w : World) : World := (m w).2.

(** The IDs of the records of a store. *)
Definition product_ids (m : gmap string string) : gset string :=
  list_to_set ((λ k, TrimPrefix k productsKeyPrefix)
                 <$> keys_matching productsKeyPrefix m).


(** [w'] comes from [w] without a write: the store is as it was and no SET
    was sent. *)
Definition quiet (w w' : World) : Prop :=
  redis w' = redis w ∧ writes (trace w') = writes (trace w).

(** Every record of [w] is still in [w'], with the same bytes. *)
Definition preserved (w w' : World) : Prop :=
  ∀ k v, redis w !! k = Some v → redis w' !! k = Some v.

(** The ID that the small revision gives to the record it generates when
    the catalog holds [count] records. *)
Definition auto_id (count : Z) : string := "seed-auto-" +:+ pretty (count + 1).

(** The record that [CreateProduct] hands back for [p] in the world [w]:
    [p] with the ID and the time stamp that the clock of [w] gives it when it
    has none. *)
Definition stamped (p : Product) (w : World) : Product :=
  let p1 :=
    if bool_decide (ID p = "")
    then with_ID (pretty (UnixNano (clock w (ticks w)))) p else p in
  if IsZero (CreatedAt p1)
  then with_CreatedAt
         (clock w (if bool_decide (ID p = "") then S (ticks w) else ticks w))
         p1
  else p1.

(** encoding/json writes a string as UTF-8: it reads it rune by rune with
    utf8.DecodeRuneInString and writes U+FFFD for a byte that starts no
    valid encoding, so that such a byte is decoded as the three bytes of
    U+FFFD.  [utf8_accept] is the table of unicode/utf8: for a leading
    byte, the length of the encoding and the range of its second byte. *)
Definition byte_in (lo hi : nat) (c : ascii) : bool :=
  bool_decide (lo ≤ nat_of_ascii c ≤ hi)%nat.

Definition utf8_accept (c : ascii) : option (nat * nat * nat) :=
  let n := nat_of_ascii c in
  if bool_decide (194 ≤ n ≤ 223)%nat then Some (2, 128, 191)%nat
  else if bool_decide (n = 224)%nat then Some (3, 160, 191)%nat
  else if bool_decide (225 ≤ n ≤ 236)%nat then Some (3, 128, 191)%nat
  else if bool_decide (n = 237)%nat then Some (3, 128, 159)%nat
  else if bool_decide (238 ≤ n ≤ 239)%nat then Some (3, 128, 191)%nat
  else if bool_decide (n = 240)%nat then Some (4, 144, 191)%nat
  else if bool_decide (241 ≤ n ≤ 243)%nat then Some (4, 128, 191)%nat
  else if bool_decide (n = 244)%nat then Some (4, 128, 143)%nat
  else None.

(** U+FFFD in UTF-8. *)
Definition replacement_char : string :=
  String (ascii_of_nat 239) (String (ascii_of_nat 191)
    (String (ascii_of_nat 189) EmptyString)).

(** A string as it comes back from its JSON encoding. *)
Fixpoint coerce_utf8 (s : string) : string :=
  match s with
  | EmptyString => EmptyString
  | String c0 s1 =>
      let bad := λ _ : unit, replacement_char +:+ coerce_utf8 s1 in
      if byte_in 0 127 c0 then String c0 (coerce_utf8 s1)
      else
        match utf8_accept c0, s1 with
        | Some (size, lo, hi), String c1 s2 =>
            if byte_in lo hi c1 then
              match size, s2 with
              | 2%nat, _ => String c0 (String c1 (coerce_utf8 s2))
              | 3%nat, String c2 s3 =>
                  if byte_in 128 191 c2
                  then String c0 (String c1 (String c2 (coerce_utf8 s3)))
                  else bad tt
              | 4%nat, String c2 (String c3 s4) =>
                  if byte_in 128 191 c2 && byte_in 128 191 c3
                  then String c0 (String c1 (String c2 (String c3
                         (coerce_utf8 s4))))
                  else bad tt
              | _, _ => bad tt
              end
            else bad tt
        | _, _ => bad tt
        end
  end.

Definition coerce_product (p : Product) : Product :=
  mkProduct (coerce_utf8 (ID p)) (coerce_utf8 (Name p))
    (coerce_utf8 (Description p)) (Price p) (coerce_utf8 (Category p))
    (Stock p) (CreatedAt p).

(** The codec of a book that, as encoding/json does, encodes a product
    with its strings coerced to valid UTF-8. *)
Definition coercing_lib (book : list Product) : GoLib :=
  {| Marshal := λ p, book_Marshal book (coerce_product p);
     Unmarshal := book_Unmarshal book;
     ToLower := lower |}.

(** A record whose name is the byte 0xFF, which is no UTF-8. *)
Definition garbled : Product :=
  mkProduct "7" (String (ascii_of_nat 255) EmptyString) "A record of the caller"
    (f64_lit 100 2) "Misc" 1 t0.

(** ** The words of the specification *)

(** [sub] occurs in [s]. *)
Definition substring (sub s : string) : Prop :=
  ∃ a b, s = a +:+ sub +:+ b.

(** The filter of a listing, as the specification words it. *)
Definition matches `{GoLib} (category searchQuery : string) (p : Product)
    : Prop :=
  (category ≠ "" → Category p = category) ∧
  (searchQuery ≠ "" →
     substring (ToLower searchQuery) (ToLower (Name p)) ∨
     substring (ToLower searchQuery) (ToLower (Description p))).

(** ** What the further properties speak of *)

(** No coming Redis command fails. *)
Definition served (w : World) : Prop := Forall (λ f, f = None) (redis_faults w).

(** The number of records of a store. *)
Definition record_count (m : gmap string string) : Z :=
  Z.of_nat (size (product_ids m)).

(** The record that a served read of [key] and its decoding give. *)
Definition stored_record `{GoLib} (m : gmap string string) (key : string)
    : option Product :=
  match m !! key with
  | Some data =>
      match Unmarshal data with
      | inr p => Some p
      | inl _ => None
      end
  | None => None
  end.

(** The test that the scan path puts a decoded record to. *)
Definition passes `{GoLib} (category searchQuery : string) (p : Product)
    : bool :=
  negb (nonempty category && negb (bool_decide (Category p = category)))
  && negb (nonempty searchQuery
           && (negb (Contains (ToLower (Name p)) (ToLower searchQuery))
               && negb (Contains (ToLower (Description p))
                          (ToLower searchQuery)))).

Definition is_read_or_log (e : Event) : bool :=
  match e with RedisGET _ | Log _ _ => true | _ => false end.

(** ** The gRPC server (internal/server/server.go) *)

(** The messages of the generated package [proto], with the fields that the
    handlers read and write. *)
Module proto.

Record Product : Type := mkProduct {
  Id : string;
  Name : string;
  Description : string;
  Price : float64;
  Category : string;
  Stock : Z;
  CreatedAt : string;
}.

Record ListProductsRequest : Type := mkListProductsRequest {
  lreq_Page : Z;              (* Page *)
  lreq_PageSize : Z;          (* PageSize *)
  lreq_Category : string;     (* Category *)
  lreq_SearchQuery : string;  (* SearchQuery *)
}.

Record ListProductsResponse : Type := mkListProductsResponse {
  lres_Products : list Product;  (* Products *)
  lres_Total : Z;                (* Total *)
  lres_Page : Z;                 (* Page *)
  lres_PageSize : Z;             (* PageSize *)
}.

Record GetProductRequest : Type := mkGetProductRequest {
  greq_Id : string;  (* Id *)
}.

Record CreateProductRequest : Type := mkCreateProductRequest {
  creq_Name : string;         (* Name *)
  creq_Description : string;  (* Description *)
  creq_Price : float64;       (* Price *)
  creq_Category : string;     (* Category *)
  creq_Stock : Z;             (* Stock *)
}.

End proto.

(** google.golang.org/grpc/codes, the three that the handlers use. *)
Inductive Code : Type := InvalidArgument | NotFound | Internal.

(** [status.Errorf(code, format, args...)] with the message formatted. *)
Record Status : Type := mkStatus {
  status_code : Code;
  status_message : string;
}.

(** What a handler yields: a message, a status error, or the panic of the
    repository call passing through it. *)
Inductive reply (A : Type) : Type :=
| Reply (a : A)
| Refused (st : Status)
| Crashed (msg : string)
| NoReply.   (* the repository call did not finish *)

Arguments Reply {A} a.
Arguments Refused {A} st.
Arguments Crashed {A} msg.
Arguments NoReply {A}.

(** The world of the server: the world of its repository and the lines
    that the server logged at Error level, newest first. *)
Record ServerWorld : Type := mkServerWorld {
  world : World;
  error_log : list string;
}.

(** [x < y] on [float64]: false when either is NaN. *)
Definition f64_lt (x y : float64) : bool := SFltb x y.

Module server.

Section Handlers.
Context `{GoLib}.
Variable repo : RedisRepository.
(** [t.Format("2006-01-02T15:04:05Z07:00")] *)
Variable Format : Time → string.

(** A call of the repository from a handler. *)
Definition call {A} (m : M A) (s : ServerWorld) : A * ServerWorld :=
  let (a, w) := m (world s) in (a, mkServerWorld w (error_log s)).

(** [s.logger.Error(msg, ...)] *)
Definition logger_Error (msg : string) (s : ServerWorld) : ServerWorld :=
  mkServerWorld (world s) (msg :: error_log s).

(** [&proto.Product{Id: p.ID, ..., CreatedAt: p.CreatedAt.Format(...)}] *)
Definition toProto (p : Product) : proto.Product :=
  proto.mkProduct (ID p) (Name p) (Description p) (Price p) (Category p)
    (Stock p) (Format (CreatedAt p)).

Definition ListProducts (req : proto.ListProductsRequest) (s : ServerWorld)
    : reply proto.ListProductsResponse * ServerWorld :=
  let Page :=
    if bool_decide (proto.lreq_Page req ≤ 0) then 1 else proto.lreq_Page req in
  let PageSize :=
    if bool_decide (proto.lreq_PageSize req ≤ 0) then 10
    else proto.lreq_PageSize req in
  let PageSize := if bool_decide (100 < PageSize) then 100 else PageSize in
  let (listed, s) :=
    call (ListProducts repo Page PageSize (proto.lreq_Category req)
            (proto.lreq_SearchQuery req)) s in
  match listed with
  | Err err =>
      (Refused (mkStatus Internal ("failed to list products: " +:+ Error err)),
       logger_Error "Failed to list products" s)
  | Ok (products, total) =>
      (Reply (proto.mkListProductsResponse (toProto <$> products) total Page
                PageSize), s)
  | Panic msg => (Crashed msg, s)
  | Unfinished => (NoReply, s)
  end.

Definition GetProduct (req : proto.GetProductRequest) (s : ServerWorld)
    : reply proto.Product * ServerWorld :=
  if bool_decide (proto.greq_Id req = "")
  then (Refused (mkStatus InvalidArgument "product id is required"), s)
  else
    let (got, s) := call (GetProduct (proto.greq_Id req)) s in
    match got with
    | Err err =>
        (Refused (mkStatus NotFound ("product not found: " +:+ Error err)),
         logger_Error "Failed to get product" s)
    | Ok product => (Reply (toProto product), s)
    | Panic msg => (Crashed msg, s)
    | Unfinished => (NoReply, s)
    end.

Definition CreateProduct (req : proto.CreateProductRequest) (s : ServerWorld)
    : reply proto.Product * ServerWorld :=
  if bool_decide (proto.creq_Name req = "")
  then (Refused (mkStatus InvalidArgument "product name is required"), s)
  else if f64_lt (proto.creq_Price req) (f64_of_int 0)
  then (Refused (mkStatus InvalidArgument
                   "product price must be non-negative"), s)
  else
    let product :=
      mkProduct "" (proto.creq_Name req) (proto.creq_Description req)
        (proto.creq_Price req) (proto.creq_Category req) (proto.creq_Stock req)
        zeroTime in
    let (created, s) := call (CreateProduct repo product) s in
    match created with
    | (_, Some err) =>
        (Refused (mkStatus Internal
                    ("failed to create product: " +:+ Error err)),
         logger_Error "Failed to create product" s)
    | (product, None) => (Reply (toProto product), s)
    end.

End Handlers.

End server.

(** A layout for the tests: the nanoseconds in decimal. *)
Definition plain_Format (t : Time) : string := pretty (UnixNano t).

(** ** The constructor of the repository *)

(** [client.Ping(ctx).Err()] and [client.Do(ctx, command).Result()], for a
    command that reads nothing of the store: the next outcome of the tape
    of the store.  The trace has no event for them. *)
Definition redis_Ping : M (option error) := next_fault.

Definition redis_Do (command : string) : M (option error) := next_fault.

(** [r.search.CreateIndex(schema)]: the next outcome of the tape of the
    index. *)
Definition search_CreateIndex : M (option error) :=
  λ w, match index_faults w with
       | [] => (None, w)
       | f :: rest => (f, set_index_faults rest w)
       end.

Definition detectRediSearch : M (option error) := redis_Do "FT._LIST".

Definition createIndex (r : RedisRepository) : M (option error) :=
  if negb (searchEnabled r) || bool_decide (search r = None) then ret None
  else
    let* e := search_CreateIndex in
    match e with
    | Some _ =>
        log LDebug "Index creation returned error (might already exist)" ;;
        ret None
    | None => ret None
    end.

Section Constructor.
(** The seeding and the verification of the revision. *)
Variable seedData verifySeedData : RedisRepository → M (result unit).

Definition NewRedisRepository (addr : string) : M (result RedisRepository) :=
  let* pinged := redis_Ping in
  match pinged with
  | Some err => ret (Err (Wrapf "failed to connect to redis: " err))
  | None =>
      let repo := mkRepo None defaultIndexName false in
      let* detected := detectRediSearch in
      let* repo :=
        match detected with
        | Some _ =>
            log LWarn
              "RediSearch module not available; search features disabled" ;;
            ret repo
        | None => ret (mkRepo (Some addr) defaultIndexName true)
        end in
      let* indexed := createIndex repo in
      match indexed with
      | Some _ => log LWarn "Failed to create search index, continuing anyway"
      | None => ret tt
      end ;;
      let* seeded := seedData repo in
      match seeded with
      | Panic msg => ret (Panic msg)
      | Unfinished => ret Unfinished
      | Ok _ | Err _ =>
          match seeded with
          | Err _ => log LWarn "Failed to seed data"
          | _ => ret tt
          end ;;
          let* verified := verifySeedData repo in
          match verified with
          | Panic msg => ret (Panic msg)
          | Unfinished => ret Unfinished
          | Err _ =>
              log LWarn "Product data verification failed" ;; ret (Ok repo)
          | Ok _ => ret (Ok repo)
          end
      end
  end.

End Constructor.

(** * Properties *)

(** ** Integers *)

Lemma wrap32_small z : - 2 ^ 31 ≤ z < 2 ^ 31 → wrap32 z = z.
Proof.
  intros Hz. unfold wrap32.
  rewrite Z.mod_small by lia. lia.
Qed.

Lemma wrap32_range z : - 2 ^ 31 ≤ wrap32 z < 2 ^ 31.
Proof.
  unfold wrap32.
  pose proof (Z.mod_pos_bound (z + 2 ^ 31) (2 ^ 32) ltac:(lia)). lia.
Qed.

(** ** Strings *)

Lemma prefix_cons c pre d s :
  String.prefix (String c pre) (String d s)
  = if ascii_dec c d then String.prefix pre s else false.
Proof. reflexivity. Qed.

Lemma prefix_spec pre s : String.prefix pre s = true ↔ ∃ t, s = pre +:+ t.
Proof.
  revert s. induction pre as [|c pre IH]; intros s; simpl.
  - split; [intros _; by exists s | intros _; destruct s; reflexivity].
  - destruct s as [|d s].
    + split; [done | intros [t Ht]; discriminate].
    + rewrite prefix_cons. destruct (ascii_dec c d) as [->|Hne].
      * rewrite (IH s). split; intros [t Ht]; exists t.
        -- by rewrite Ht.
        -- by injection Ht.
      * split; [done | intros [t Ht]; injection Ht; congruence].
Qed.

Lemma string_drop_app pre s : string_drop (String.length pre) (pre +:+ s) = s.
Proof. induction pre; simpl; auto. Qed.

Lemma TrimPrefix_app pre s : TrimPrefix (pre +:+ s) pre = s.
Proof.
  unfold TrimPrefix.
  rewrite (proj2 (prefix_spec pre (pre +:+ s))) by eauto.
  apply string_drop_app.
Qed.

Lemma TrimPrefix_keyFor id : TrimPrefix (keyFor id) productsKeyPrefix = id.
Proof. apply TrimPrefix_app. Qed.

Lemma keyFor_prefix id : String.prefix productsKeyPrefix (keyFor id) = true.
Proof. apply prefix_spec. by exists id. Qed.

Lemma keyFor_inj id1 id2 : keyFor id1 = keyFor id2 → id1 = id2.
Proof.
  intros Heq. rewrite <- (TrimPrefix_keyFor id1), Heq.
  apply TrimPrefix_keyFor.
Qed.

Lemma append_cons c (a b : string) : String c a +:+ b = String c (a +:+ b).
Proof. reflexivity. Qed.

Lemma Contains_nil sub : Contains "" sub = String.prefix sub "" || false.
Proof. reflexivity. Qed.

Lemma Contains_cons c s sub :
  Contains (String c s) sub = String.prefix sub (String c s) || Contains s sub.
Proof. reflexivity. Qed.

Lemma Contains_spec s sub : Contains s sub = true ↔ substring sub s.
Proof.
  unfold substring. induction s as [|c s IH].
  - rewrite Contains_nil, orb_false_r, prefix_spec. split.
    + intros [t Ht]. by exists EmptyString, t.
    + intros (a & b & Hab). destruct a; [by exists b|discriminate].
  - rewrite Contains_cons, orb_true_iff, IH, prefix_spec. split.
    + intros [[t Ht] | (a & b & Hab)].
      * by exists EmptyString, t.
      * exists (String c a), b. by rewrite append_cons, Hab.
    + intros (a & b & Hab). destruct a as [|d a].
      * left. by exists b.
      * right. exists a, b. rewrite append_cons in Hab. congruence.
Qed.

Lemma nonempty_false s : nonempty s = false ↔ s = "".
Proof. unfold nonempty. rewrite negb_false_iff, bool_decide_eq_true. done. Qed.

(** ** The store and its IDs *)

Lemma elem_of_keys_matching pre (m : gmap string string) k :
  k ∈ keys_matching pre m ↔ is_Some (m !! k) ∧ String.prefix pre k = true.
Proof.
  unfold keys_matching. rewrite list_elem_of_filter, list_elem_of_fmap. split.
  - intros [Hpre ([k' v] & -> & Hin)]. apply elem_of_map_to_list in Hin.
    simpl. eauto.
  - intros [[v Hv] Hpre]. split; [done|].
    exists (k, v). split; [done|]. by apply elem_of_map_to_list.
Qed.

Lemma elem_of_product_ids (m : gmap string string) id :
  id ∈ product_ids m ↔ is_Some (m !! keyFor id).
Proof.
  unfold product_ids. rewrite elem_of_list_to_set, list_elem_of_fmap. split.
  - intros (k & -> & Hin). apply elem_of_keys_matching in Hin as [Hsome Hpre].
    apply prefix_spec in Hpre as [t ->]. by rewrite TrimPrefix_app.
  - intros Hsome. exists (keyFor id). split.
    + by rewrite TrimPrefix_keyFor.
    + apply elem_of_keys_matching. split; [done | apply keyFor_prefix].
Qed.

Lemma product_ids_insert (m : gmap string string) id data :
  product_ids (<[keyFor id := data]> m) = {[id]} ∪ product_ids m.
Proof.
  apply set_eq. intros x.
  rewrite elem_of_union, elem_of_singleton, !elem_of_product_ids.
  destruct (decide (x = id)) as [->|Hne].
  - rewrite lookup_insert_eq. split; eauto.
  - rewrite lookup_insert_ne by (intros Heq; apply keyFor_inj in Heq; done).
    split; [eauto | intros [?|?]; done].
Qed.

Lemma product_ids_absent (m : gmap string string) id :
  id ∉ product_ids m → m !! keyFor id = None.
Proof.
  rewrite elem_of_product_ids. intros Hno.
  destruct (m !! keyFor id) eqn:E; [|done]. destruct Hno. eauto.
Qed.

Lemma foldl_ids keys (acc : gset string) :
  foldl (λ acc key, {[TrimPrefix key productsKeyPrefix]} ∪ acc) acc keys
  = list_to_set ((λ k, TrimPrefix k productsKeyPrefix) <$> keys) ∪ acc.
Proof.
  revert acc. induction keys as [|k keys IH]; intros acc; simpl.
  - by rewrite (left_id_L ∅ (∪)).
  - rewrite IH. apply set_eq. intros x.
    rewrite !elem_of_union, elem_of_singleton. tauto.
Qed.

Lemma chunks_concat fuel n keys : concat (chunks fuel n keys) = keys.
Proof.
  revert keys. induction fuel as [|fuel IH]; intros keys; simpl.
  - by rewrite app_nil_r.
  - case_bool_decide; simpl.
    + by rewrite app_nil_r.
    + by rewrite IH, take_drop.
Qed.

Lemma scan_batches_concat pre count m :
  concat (scan_batches pre count m) = keys_matching pre m.
Proof. apply chunks_concat. Qed.

(** ** What the primitives do to the world *)

Ltac prim :=
  unfold exec, eval, redis_Get, redis_Set, redis_Keys, redis_Scan,
    search_Index, search_Search, log in *;
  unfold emit, next_fault, time_Now, bind, ret in *.

Ltac crush := intros; prim; simpl in *; repeat (case_match; simpl in *); simplify_eq/=; try done.

Lemma writes_cons e tr :
  writes (e :: tr)
  = writes tr ++ match e with RedisSET k d => [(k, d)] | _ => [] end.
Proof.
  unfold writes. simpl. destruct e; simpl; by rewrite ?app_nil_r.
Qed.

Lemma quiet_refl w : quiet w w.
Proof. by split. Qed.

Lemma quiet_trans w1 w2 w3 : quiet w1 w2 → quiet w2 w3 → quiet w1 w3.
Proof. intros [? ?] [? ?]. split; congruence. Qed.

Lemma quiet_preserved w w' : quiet w w' → preserved w w'.
Proof. intros [Hr _] k v. by rewrite Hr. Qed.

Lemma preserved_refl w : preserved w w.
Proof. by intros k v. Qed.

Lemma preserved_trans w1 w2 w3 :
  preserved w1 w2 → preserved w2 w3 → preserved w1 w3.
Proof. intros H12 H23 k v Hk. eauto. Qed.

Lemma quiet_emit e w :
  (∀ k d, e ≠ RedisSET k d) → quiet w (exec (emit e) w).
Proof.
  intros He. split; [done|]. prim. simpl. rewrite writes_cons.
  destruct e; rewrite ?app_nil_r; try done. by destruct (He key data).
Qed.

Lemma quiet_log lvl msg w : quiet w (exec (log lvl msg) w).
Proof. by apply quiet_emit. Qed.

Lemma quiet_time_Now w : quiet w (exec time_Now w).
Proof. by split. Qed.

Lemma quiet_redis_Get key w : quiet w (exec (redis_Get key) w).
Proof. split; crush; by rewrite writes_cons, app_nil_r. Qed.

Lemma quiet_redis_Keys pre w : quiet w (exec (redis_Keys pre) w).
Proof. split; crush; by rewrite writes_cons, app_nil_r. Qed.

Lemma quiet_redis_Scan pre n w : quiet w (exec (redis_Scan pre n) w).
Proof. split; crush; by rewrite writes_cons, app_nil_r. Qed.

Lemma quiet_search_Index key doc w : quiet w (exec (search_Index key doc) w).
Proof. split; crush; by rewrite writes_cons, app_nil_r. Qed.

Lemma quiet_search_Search q s a o l w :
  quiet w (exec (search_Search q s a o l) w).
Proof. split; crush; by rewrite writes_cons, app_nil_r. Qed.

(** What a successful read says about the store. *)
Lemma redis_Get_inr key w data :
  eval (redis_Get key) w = inr data → redis w !! key = Some data.
Proof. crush. Qed.

Lemma redis_Get_served key w :
  hd None (redis_faults w) = None →
  eval (redis_Get key) w
  = match redis w !! key with Some data => inr data | None => inl redis_Nil end.
Proof. crush. Qed.

Lemma bind_run {A B} (m : M A) (k : A → M B) w :
  bind m k w = k (eval m w) (exec m w).
Proof. unfold bind, eval, exec. by destruct (m w). Qed.

Lemma quiet_ret {A} (a : A) w : quiet w (exec (ret a) w).
Proof. apply quiet_refl. Qed.

Lemma quiet_bind {A B} (m : M A) (k : A → M B) w :
  quiet w (exec m w) →
  (∀ a w', quiet w' (exec (k a) w')) →
  quiet w (exec (bind m k) w).
Proof.
  intros Hm Hk. eapply quiet_trans; [exact Hm|].
  replace (exec (bind m k) w) with (exec (k (eval m w)) (exec m w)).
  - apply Hk.
  - unfold exec at 1 3. by rewrite bind_run.
Qed.

Create HintDb quiet.

#[local] Hint Resolve quiet_refl quiet_ret quiet_log quiet_time_Now
  quiet_redis_Get quiet_redis_Keys quiet_redis_Scan quiet_search_Index
  quiet_search_Search : quiet.

Ltac quiet_go :=
  repeat first
    [ progress auto with quiet
    | apply quiet_emit; done
    | apply quiet_bind; [|intros]
    | case_match ].

Section Stable.
Context `{GoLib}.

Lemma GetProduct_quiet id w : quiet w (exec (GetProduct id) w).
Proof. unfold GetProduct. quiet_go. Qed.

Lemma fetch_docs_quiet docs acc w : quiet w (exec (fetch_docs docs acc) w).
Proof.
  revert acc w. induction docs as [|doc docs IH]; intros acc w; simpl.
  - apply quiet_ret.
  - quiet_go.
Qed.

Lemma scan_filter_quiet c q ql keys acc w :
  quiet w (exec (scan_filter c q ql keys acc) w).
Proof.
  revert acc w. induction keys as [|key keys IH]; intros acc w; simpl.
  - apply quiet_ret.
  - quiet_go.
Qed.

#[local] Hint Resolve fetch_docs_quiet scan_filter_quiet : quiet.

Lemma ListProducts_quiet r page pageSize c q w :
  quiet w (exec (ListProducts r page pageSize c q) w).
Proof. unfold ListProducts. quiet_go. Qed.

End Stable.

Lemma preserved_ids w w' :
  preserved w w' → product_ids (redis w) ⊆ product_ids (redis w').
Proof.
  intros Hp id. rewrite !elem_of_product_ids. intros [v Hv]. eauto.
Qed.

Lemma preserved_insert_absent w w' key data :
  redis w !! key = None → redis w' = <[key := data]> (redis w) →
  preserved w w'.
Proof.
  intros Hnone Hins k v Hk. rewrite Hins, lookup_insert_ne; [done|].
  congruence.
Qed.

Section Create.
Context `{GoLib}.
Variable r : RedisRepository.

(** What [CreateProduct] does: it writes one key, the one of the ID that the
    returned record carries, and only when it returns no error. *)
Lemma CreateProduct_spec p w p' e w' :
  CreateProduct r p w = ((p', e), w') →
  (ID p ≠ "" → ID p' = ID p) ∧
  match e with
  | None =>
      ∃ data, Marshal p' = inr data
              ∧ redis w' = <[keyFor (ID p') := data]> (redis w)
              ∧ writes (trace w') = writes (trace w) ++ [(keyFor (ID p'), data)]
  | Some _ => redis w' = redis w
  end.
Proof.
  unfold CreateProduct. intros Hrun. split.
  - intros Hid. revert Hrun. rewrite bool_decide_eq_false_2 by done.
    crush.
  - revert Hrun. crush.
    all: eexists; split; [eassumption|split; [done|]].
    all: rewrite !writes_cons; simpl; by rewrite ?app_nil_r.
Qed.

End Create.

(** ** The seeding loops keep [existing] equal to the IDs of the store *)

Section Seeding.
Context `{GoLib}.
Variable r : RedisRepository.

(** One round of a seeding loop: a record whose ID is not in the store is
    created. *)
Lemma create_fresh p w p' e w' :
  ID p ≠ "" → ID p ∉ product_ids (redis w) →
  CreateProduct r p w = ((p', e), w') →
  preserved w w' ∧ ID p' = ID p ∧
  (e = None → product_ids (redis w') = {[ID p]} ∪ product_ids (redis w)).
Proof.
  intros Hid Hfresh Hrun.
  apply CreateProduct_spec in Hrun as [Hsame Heff].
  specialize (Hsame Hid). rewrite Hsame in Heff.
  destruct e as [err|].
  - split; [|done]. intros k v. by rewrite Heff.
  - destruct Heff as (data & _ & Hredis & _). split; [|split; [done|]].
    + eapply preserved_insert_absent; [|exact Hredis].
      by apply product_ids_absent.
    + intros _. by rewrite Hredis, product_ids_insert.
Qed.

(** The time stamp that the seeding loops put on a base record. *)
Lemma stamp_run (p : Product) w :
  ∃ seed w1,
    (if IsZero (CreatedAt p)
     then let* t := time_Now in ret (with_CreatedAt t p)
     else ret p) w = (seed, w1)
    ∧ ID seed = ID p ∧ redis w1 = redis w ∧ trace w1 = trace w.
Proof. destruct (IsZero (CreatedAt p)); eexists _, _; by split. Qed.

Lemma seed_base_inv failure products existing w res w' :
  (∀ p, p ∈ products → ID p ≠ "") →
  existing = product_ids (redis w) →
  seed_base r failure products existing w = (res, w') →
  preserved w w' ∧
  ∀ e', res = Ok e' →
        e' = product_ids (redis w') ∧ ∀ p, p ∈ products → ID p ∈ e'.
Proof.
  revert existing w.
  induction products as [|p rest IH]; intros existing w Hids Hex Hrun.
  - simpl in Hrun. unfold ret in Hrun. simplify_eq.
    split; [apply preserved_refl|]. intros e' [= <-]. split; [done|].
    intros p Hp. by apply elem_of_nil in Hp.
  - assert (Hrest : ∀ q, q ∈ rest → ID q ≠ "") by (intros; apply Hids; by right).
    simpl in Hrun. case_bool_decide as Hin.
    + apply IH in Hrun as [Hpres Hok]; [|done..].
      split; [done|]. intros e' He'. destruct (Hok e' He') as [-> Hall].
      split; [done|]. intros q [->|Hq]%elem_of_cons; [|by apply Hall].
      eapply preserved_ids; [exact Hpres|]. by rewrite <- Hex.
    + unfold bind at 1 in Hrun.
      destruct (stamp_run p w) as (seed & w1 & Hst & Hsid & Hr1 & _).
      rewrite Hst in Hrun. unfold bind at 1 in Hrun.
      destruct (CreateProduct r seed w1) as [[s' e] w2] eqn:Hc.
      apply create_fresh in Hc as (Hpres & Hsame & Hnew);
        [|rewrite Hsid; apply Hids; by left|by rewrite Hsid, Hr1, <- Hex].
      assert (Hp2 : preserved w w2) by (intros k v; rewrite <- Hr1; apply Hpres).
      destruct e as [err|].
      * unfold ret in Hrun. simplify_eq. split; [done|]. by intros e' [=].
      * specialize (Hnew eq_refl).
        apply IH in Hrun as [Hpres2 Hok];
          [|done|by rewrite Hsame, Hnew, Hr1, <- Hex].
        split; [by eapply preserved_trans|].
        intros e' He'. destruct (Hok e' He') as [-> Hall].
        split; [done|]. intros q [->|Hq]%elem_of_cons; [|by apply Hall].
        eapply preserved_ids; [exact Hpres2|].
        rewrite Hnew, Hsid. apply elem_of_union_l. by apply elem_of_singleton.
Qed.

End Seeding.

Section Seeding2.
Context `{GoLib}.
Variable r : RedisRepository.

(** A base loop that finds every record present does nothing. *)
Lemma seed_base_present failure products existing w :
  (∀ p, p ∈ products → ID p ∈ existing) →
  seed_base r failure products existing w = (Ok existing, w).
Proof.
  induction products as [|p rest IH]; intros Hall; [done|].
  simpl. rewrite bool_decide_eq_true_2 by (apply Hall; by left).
  apply IH. intros q Hq. apply Hall. by right.
Qed.

Lemma seedProducts_ids p : p ∈ seedProducts → ID p ≠ "".
Proof.
  unfold seedProducts. rewrite !elem_of_cons, elem_of_nil.
  intros [->|[->|[->|[->|[->|[]]]]]]; done.
Qed.

(** *** The small revision *)

Lemma seed_auto_inv rounds count existing w res w' :
  existing = product_ids (redis w) →
  Small.seed_auto r rounds count existing w = (res, w') →
  preserved w w' ∧
  ∀ e' c', res = Ok (e', c') →
    e' = product_ids (redis w') ∧ c' = count + Z.of_nat rounds ∧
    ∀ j, count ≤ j < count + Z.of_nat rounds → auto_id j ∈ e'.
Proof.
  revert count existing w.
  induction rounds as [|n IH]; intros count existing w Hex Hrun.
  - simpl in Hrun. unfold ret in Hrun. simplify_eq.
    split; [apply preserved_refl|]. intros e' c' [= <- <-].
    split; [done|]. split; [lia|]. intros j Hj. lia.
  - simpl in Hrun. fold (auto_id count) in Hrun. case_bool_decide as Hin.
    + apply IH in Hrun as [Hpres Hok]; [|done].
      split; [done|]. intros e' c' He'.
      destruct (Hok e' c' He') as (-> & -> & Hall).
      split; [done|]. split; [lia|]. intros j Hj.
      destruct (decide (j = count)) as [->|Hne]; [|apply Hall; lia].
      eapply preserved_ids; [exact Hpres|]. by rewrite <- Hex.
    + unfold bind at 1, time_Now at 1 in Hrun. unfold bind at 1 in Hrun.
      match type of Hrun with
      | context [CreateProduct r ?s ?w0] =>
          destruct (CreateProduct r s w0) as [[s' e] w2] eqn:Hc
      end.
      apply create_fresh in Hc as (Hpres & Hsame & Hnew);
        [|done|simpl; by rewrite <- Hex].
      simpl in Hnew, Hsame.
      assert (Hp2 : preserved w w2) by exact Hpres.
      destruct e as [err|].
      * unfold ret in Hrun. simplify_eq. split; [done|]. by intros e' c' [=].
      * specialize (Hnew eq_refl).
        apply IH in Hrun as [Hpres2 Hok]; [|by rewrite Hnew, <- Hex].
        split; [by eapply preserved_trans|].
        intros e' c' He'. destruct (Hok e' c' He') as (-> & -> & Hall).
        split; [done|]. split; [lia|]. intros j Hj.
        destruct (decide (j = count)) as [->|Hne]; [|apply Hall; lia].
        eapply preserved_ids; [exact Hpres2|].
        rewrite Hnew. apply elem_of_union_l. by apply elem_of_singleton.
Qed.

Lemma seed_auto_present rounds count existing w :
  (∀ j, count ≤ j < count + Z.of_nat rounds → auto_id j ∈ existing) →
  Small.seed_auto r rounds count existing w
  = (Ok (existing, count + Z.of_nat rounds), w).
Proof.
  revert count. induction rounds as [|n IH]; intros count Hall.
  - simpl. unfold ret. do 3 f_equal. lia.
  - simpl. fold (auto_id count).
    rewrite bool_decide_eq_true_2 by (apply Hall; lia).
    rewrite IH by (intros; apply Hall; lia). do 3 f_equal. lia.
Qed.

End Seeding2.

Section SmallSeeding.
Context `{GoLib}.
Variable r : RedisRepository.

Lemma redis_Keys_run pre w :
  (eval (redis_Keys pre) w
   = inr (keys_matching pre (redis w))
   ∨ ∃ err, eval (redis_Keys pre) w = inl err)
  ∧ quiet w (exec (redis_Keys pre) w).
Proof.
  split; [|apply quiet_redis_Keys]. crush; eauto.
Qed.

(** When the small seeding returns without error, the store holds every
    base record and every generated ID up to the minimum. *)
Lemma small_seedData_ok minSeed w w' :
  Small.seedData_to r minSeed w = (Ok tt, w') →
  preserved w w' ∧
  (∀ p, p ∈ seedProducts → ID p ∈ product_ids (redis w')) ∧
  (∀ j, Z.of_nat (size (product_ids (redis w'))) ≤ j < minSeed →
        auto_id j ∈ product_ids (redis w')).
Proof.
  unfold Small.seedData_to. rewrite bind_run.
  destruct (redis_Keys_run productsKeyPrefix w) as [[Hk|[err Hk]] [Hq _]];
    rewrite Hk; [|by unfold ret].
  rewrite foldl_ids, (right_id_L ∅ (∪)). fold (product_ids (redis w)).
  rewrite <- Hq. set (w1 := exec (redis_Keys productsKeyPrefix) w).
  rewrite bind_run. unfold eval, exec.
  destruct (seed_base r _ seedProducts _ w1) as [res w2] eqn:Hb.
  apply seed_base_inv in Hb as [Hp12 Hok]; [|apply seedProducts_ids|done].
  cbn [fst snd]. destruct res as [existing| | |]; [|by unfold ret..].
  destruct (Hok _ eq_refl) as [-> Hbase].
  rewrite bind_run. unfold eval, exec.
  destruct (Small.seed_auto r _ _ _ w2) as [res w3] eqn:Ha.
  apply seed_auto_inv in Ha as [Hp23 Hok']; [|done].
  cbn [fst snd]. destruct res as [[e' c']| | |]; [|by unfold ret..].
  destruct (Hok' _ _ eq_refl) as (-> & _ & Hauto).
  unfold bind, log, emit, ret. simpl. intros [= <-]. simpl.
  assert (Hp13 : preserved w w3).
  { eapply preserved_trans; [|exact Hp23].
    intros k v Hkv. apply Hp12. unfold w1. by rewrite Hq. }
  split; [done|]. split.
  - intros p Hp. eapply preserved_ids; [exact Hp23|]. by apply Hbase.
  - intros j Hj. apply Hauto.
    pose proof (subseteq_size _ _ (preserved_ids _ _ Hp23)) as Hsz. lia.
Qed.

(** A store that holds them is left alone by the small seeding. *)
Lemma small_seedData_quiet minSeed w :
  (∀ p, p ∈ seedProducts → ID p ∈ product_ids (redis w)) →
  (∀ j, Z.of_nat (size (product_ids (redis w))) ≤ j < minSeed →
        auto_id j ∈ product_ids (redis w)) →
  quiet w (exec (Small.seedData_to r minSeed) w).
Proof.
  intros Hbase Hauto. unfold Small.seedData_to, exec. rewrite bind_run.
  destruct (redis_Keys_run productsKeyPrefix w) as [[Hk|[err Hk]] Hq];
    rewrite Hk; [|exact Hq].
  rewrite foldl_ids, (right_id_L ∅ (∪)). fold (product_ids (redis w)).
  set (w1 := exec (redis_Keys productsKeyPrefix) w) in *.
  rewrite bind_run. unfold eval, exec.
  rewrite seed_base_present by done. simpl.
  rewrite bind_run. unfold eval, exec.
  rewrite seed_auto_present.
  - simpl. eapply quiet_trans; [exact Hq|]. apply quiet_log.
  - intros j Hj. apply Hauto. lia.
Qed.

(** Together: a second run after a successful one writes nothing. *)
Lemma small_seedData_again minSeed w w1 w2 :
  Small.seedData_to r minSeed w = (Ok tt, w1) →
  redis w2 = redis w1 →
  quiet w2 (exec (Small.seedData_to r minSeed) w2).
Proof.
  intros Hrun Hsame. apply small_seedData_ok in Hrun as (_ & Hbase & Hauto).
  apply small_seedData_quiet; rewrite Hsame; done.
Qed.

End SmallSeeding.

Section SmallSeeding2.
Context `{GoLib}.
Variable r : RedisRepository.

Lemma small_seedData_preserved minSeed w :
  preserved w (exec (Small.seedData_to r minSeed) w).
Proof.
  unfold Small.seedData_to, exec. rewrite bind_run.
  destruct (redis_Keys_run productsKeyPrefix w) as [[Hk|[err Hk]] Hq];
    rewrite Hk; [|by apply quiet_preserved].
  rewrite foldl_ids, (right_id_L ∅ (∪)). fold (product_ids (redis w)).
  destruct Hq as [Hq _]. rewrite <- Hq.
  set (w1 := exec (redis_Keys productsKeyPrefix) w) in *.
  assert (Hp01 : preserved w w1) by (intros k v; by rewrite Hq).
  rewrite bind_run. unfold eval, exec.
  destruct (seed_base r _ seedProducts _ w1) as [res w2] eqn:Hb.
  apply seed_base_inv in Hb as [Hp12 Hok]; [|apply seedProducts_ids|done].
  simpl. destruct res as [existing| | |];
    try (unfold ret; simpl; by eapply preserved_trans).
  destruct (Hok _ eq_refl) as [-> Hbase].
  rewrite bind_run. unfold eval, exec.
  destruct (Small.seed_auto r _ _ _ w2) as [res w3] eqn:Ha.
  apply seed_auto_inv in Ha as [Hp23 Hok']; [|done].
  assert (Hp03 : preserved w w3).
  { eapply preserved_trans; [exact Hp01|]. by eapply preserved_trans. }
  simpl. destruct res as [[e' c']| | |]; try (unfold ret; simpl; done).
Qed.

End SmallSeeding2.

(** *** The large revision *)

Section LargeSeeding.
Context `{GoLib}.
Variable r : RedisRepository.

Lemma collect_loop_run batches acc w res w' :
  Large.collect_loop batches acc w = (res, w') →
  quiet w w' ∧
  ∀ e, res = Ok e →
       e = list_to_set ((λ k, TrimPrefix k productsKeyPrefix)
                          <$> concat batches) ∪ acc.
Proof.
  revert acc w. induction batches as [|keys rest IH]; intros acc w Hrun.
  - simpl in Hrun. unfold ret in Hrun. simplify_eq.
    split; [apply quiet_refl|]. intros e [= <-]. simpl.
    by rewrite (left_id_L ∅ (∪)).
  - simpl in Hrun. rewrite bind_run in Hrun.
    pose proof (quiet_redis_Scan productsKeyPrefix Large.seedScanBatchSize w)
      as Hq.
    destruct (eval (redis_Scan _ _) w) as [err|].
    + unfold ret in Hrun. simplify_eq. split; [done|]. by intros e [=].
    + apply IH in Hrun as [Hq' Hok]. split; [by eapply quiet_trans|].
      intros e He. rewrite (Hok e He), foldl_ids. simpl.
      rewrite fmap_app, list_to_set_app_L.
      apply set_eq. intros x. rewrite !elem_of_union. tauto.
Qed.

Lemma collectExistingProductIDs_run w res w' :
  Large.collectExistingProductIDs w = (res, w') →
  quiet w w' ∧ ∀ e, res = Ok e → e = product_ids (redis w).
Proof.
  unfold Large.collectExistingProductIDs. intros Hrun.
  apply collect_loop_run in Hrun as [Hq Hok]. split; [done|].
  intros e He. rewrite (Hok e He), scan_batches_concat.
  by rewrite (right_id_L ∅ (∪)).
Qed.

Lemma seed_generate_inv target ds existing w res w' :
  existing = product_ids (redis w) →
  Large.seed_generate r target ds existing w = (res, w') →
  preserved w w' ∧
  ∀ e', res = Ok e' →
        e' = product_ids (redis w') ∧ target ≤ Z.of_nat (size e').
Proof.
  revert existing w. induction ds as [|d rest IH]; intros existing w Hex Hrun.
  - simpl in Hrun. case_bool_decide; unfold ret in Hrun; simplify_eq.
    + split; [apply preserved_refl|]. by intros e' [= <-].
    + split; [apply preserved_refl|]. by intros e' [=].
  - simpl in Hrun. case_bool_decide as Hfull.
    { unfold ret in Hrun. simplify_eq.
      split; [apply preserved_refl|]. by intros e' [= <-]. }
    unfold bind at 1 in Hrun. case_bool_decide as Hin.
    + apply IH in Hrun as [Hp Hok]; [|done]. split; [exact Hp|done].
    + unfold bind at 1, time_Now at 1 in Hrun. unfold bind at 1 in Hrun.
      match type of Hrun with
      | context [CreateProduct r ?s ?w0] =>
          destruct (CreateProduct r s w0) as [[s' e] w2] eqn:Hc
      end.
      apply create_fresh in Hc as (Hpres & Hsame & Hnew);
        [|done|simpl; by rewrite <- Hex].
      simpl in Hnew, Hsame.
      assert (Hp2 : preserved w w2) by exact Hpres.
      destruct e as [err|].
      * unfold ret in Hrun. simplify_eq. split; [done|]. by intros e' [=].
      * specialize (Hnew eq_refl). rewrite bind_run in Hrun.
        match type of Hrun with
        | context [exec ?m w2] =>
            assert (Hq : quiet w2 (exec m w2))
              by (case_bool_decide; [apply quiet_log|apply quiet_ret]);
            set (w3 := exec m w2) in *
        end.
        destruct Hq as [Hq _].
        apply IH in Hrun as [Hpres2 Hok]; [|by rewrite Hq, Hnew, <- Hex].
        split; [|done].
        eapply preserved_trans; [exact Hp2|].
        eapply preserved_trans; [|exact Hpres2].
        intros k v. by rewrite Hq.
Qed.

End LargeSeeding.

Section LargeSeeding2.
Context `{GoLib}.
Variable r : RedisRepository.

(** The large seeding, run on a store that already holds [target] records,
    writes nothing. *)
Lemma large_seedData_quiet target w :
  target ≤ Z.of_nat (size (product_ids (redis w))) →
  quiet w (exec (Large.seedData_to r target) w).
Proof.
  intros Hfull. unfold Large.seedData_to, exec. rewrite bind_run.
  unfold eval, exec.
  destruct (Large.collectExistingProductIDs w) as [res w1] eqn:Hc.
  apply collectExistingProductIDs_run in Hc as [Hq Hok]. cbn [fst snd].
  destruct res as [existing| | |]; [|exact Hq..].
  rewrite (Hok _ eq_refl), bool_decide_eq_true_2 by done.
  rewrite bind_run. eapply quiet_trans; [exact Hq|apply quiet_log].
Qed.

(** In every case it keeps the records that it finds; when it returns
    without error the store holds [target] records. *)
Lemma large_seedData_run target w res w' :
  Large.seedData_to r target w = (res, w') →
  preserved w w' ∧
  (res = Ok tt → target ≤ Z.of_nat (size (product_ids (redis w')))).
Proof.
  unfold Large.seedData_to. rewrite bind_run. unfold eval, exec.
  destruct (Large.collectExistingProductIDs w) as [res0 w1] eqn:Hc.
  apply collectExistingProductIDs_run in Hc as [Hq Hok]. cbn [fst snd].
  assert (Hp01 : preserved w w1) by by apply quiet_preserved.
  destruct Hq as [Hq _].
  destruct res0 as [existing| | |];
    [|unfold ret; intros [= <- <-]; by split..].
  rewrite (Hok _ eq_refl). clear Hok existing.
  case_bool_decide as Hfull.
  { unfold bind, log, emit, ret. simpl. intros [= <- <-]. simpl.
    split; [done|]. intros _. by rewrite Hq. }
  rewrite bind_run. unfold eval, exec.
  destruct (seed_base r _ seedProducts _ w1) as [res1 w2] eqn:Hb.
  apply seed_base_inv in Hb as [Hp12 Hok]; [|apply seedProducts_ids|by rewrite Hq].
  assert (Hp02 : preserved w w2) by by eapply preserved_trans.
  cbn [fst snd]. destruct res1 as [existing| | |];
    [|unfold ret; intros [= <- <-]; by split..].
  destruct (Hok _ eq_refl) as [-> _]. clear Hok.
  case_bool_decide as Hfull2.
  { unfold bind, log, emit, ret. simpl. intros [= <- <-]. simpl.
    by split. }
  unfold bind at 1, time_Now at 1. rewrite bind_run. unfold eval, exec.
  match goal with
  | |- context [Large.seed_generate r target ?ds ?e ?w0] =>
      destruct (Large.seed_generate r target ds e w0) as [res2 w3] eqn:Hg
  end.
  apply seed_generate_inv in Hg as [Hp23 Hok]; [|done].
  assert (Hp03 : preserved w w3) by (eapply preserved_trans; [exact Hp02|exact Hp23]).
  cbn [fst snd]. destruct res2 as [existing| | |];
    [|unfold ret; intros [= <- <-]; by split..].
  destruct (Hok _ eq_refl) as [-> Hsize].
  unfold bind, log, emit, ret. simpl. intros [= <- <-]. simpl. by split.
Qed.

Lemma large_seedData_again target w w1 w2 :
  Large.seedData_to r target w = (Ok tt, w1) →
  redis w2 = redis w1 →
  quiet w2 (exec (Large.seedData_to r target) w2).
Proof.
  intros Hrun Hsame. apply large_seedData_run in Hrun as [_ Hfull].
  apply large_seedData_quiet. rewrite Hsame. by apply Hfull.
Qed.

End LargeSeeding2.

(** ** Counting, sampling and listing *)

Lemma size_product_ids (m : gmap string string) :
  size (product_ids m) = length (keys_matching productsKeyPrefix m).
Proof.
  unfold product_ids. rewrite size_list_to_set, length_fmap; [done|].
  apply NoDup_fmap_2_strong.
  - intros k1 k2 [_ H1]%elem_of_keys_matching [_ H2]%elem_of_keys_matching.
    apply prefix_spec in H1 as [t1 ->]. apply prefix_spec in H2 as [t2 ->].
    rewrite !TrimPrefix_app. by intros ->.
  - unfold keys_matching. apply NoDup_filter, NoDup_fst_map_to_list.
Qed.

Lemma count_loop_run shortCircuitAt batches total w res w' :
  Large.count_loop shortCircuitAt batches total w = (res, w') →
  quiet w w' ∧
  ∀ n, res = Ok n → n ≤ total + Z.of_nat (length (concat batches)).
Proof.
  revert total w. induction batches as [|keys rest IH]; intros total w Hrun.
  - simpl in Hrun. unfold ret in Hrun. simplify_eq.
    split; [apply quiet_refl|]. intros n [= <-]. simpl. lia.
  - simpl in Hrun. rewrite bind_run in Hrun.
    pose proof (quiet_redis_Scan productsKeyPrefix Large.seedScanBatchSize w)
      as Hq.
    destruct (eval (redis_Scan _ _) w) as [err|].
    + unfold ret in Hrun. simplify_eq. split; [done|]. by intros n [=].
    + simpl. rewrite length_app.
      destruct (bool_decide _ && bool_decide _).
      * unfold ret in Hrun. simplify_eq. split; [done|].
        intros n [= <-]. lia.
      * apply IH in Hrun as [Hq' Hok]. split; [by eapply quiet_trans|].
        intros n Hn. specialize (Hok n Hn). lia.
Qed.

Lemma sample_loop_run batches w res w' :
  Large.sample_loop batches w = (res, w') →
  quiet w w' ∧
  ∀ id, res = Ok id →
        id = "" ∨ ∃ key, key ∈ concat batches
                         ∧ id = TrimPrefix key productsKeyPrefix.
Proof.
  revert w. induction batches as [|keys rest IH]; intros w Hrun.
  - simpl in Hrun. unfold ret in Hrun. simplify_eq.
    split; [apply quiet_refl|]. intros id [= <-]. by left.
  - simpl in Hrun. rewrite bind_run in Hrun.
    pose proof (quiet_redis_Scan productsKeyPrefix Large.seedScanBatchSize w)
      as Hq.
    destruct (eval (redis_Scan _ _) w) as [err|].
    + unfold ret in Hrun. simplify_eq. split; [done|]. by intros id [=].
    + destruct keys as [|key keys].
      * apply IH in Hrun as [Hq' Hok]. split; [by eapply quiet_trans|].
        exact Hok.
      * unfold ret in Hrun. simplify_eq. split; [done|].
        intros id [= <-]. right. exists key. split; [|done].
        simpl. by left.
Qed.

Section Reading.
Context `{GoLib}.

(** A [GetProduct] that returns a record has read and decoded the bytes
    stored under the key of the ID. *)
Lemma GetProduct_Ok id w p w' :
  GetProduct id w = (Ok p, w') →
  ∃ data, redis w !! keyFor id = Some data ∧ Unmarshal data = inr p
          ∧ trace w'
            = RedisGET (keyFor id) :: Invoke (CallGetProduct id) :: trace w.
Proof. unfold GetProduct. crush; eauto. Qed.

(** Every record that the scan loop adds was read from the store and
    decoded. *)
Lemma scan_filter_from_store c q ql keys acc w p :
  p ∈ eval (scan_filter c q ql keys acc) w →
  p ∈ acc ∨ ∃ key data, key ∈ keys ∧ redis w !! key = Some data
                        ∧ Unmarshal data = inr p.
Proof.
  revert acc w. induction keys as [|key keys IH]; intros acc w; simpl.
  - by left.
  - unfold eval. rewrite bind_run.
    pose proof (quiet_redis_Get key w) as [Hq _].
    pose proof (redis_Get_inr key w) as Hget.
    set (w1 := exec (redis_Get key) w) in *.
    assert (Hstep : ∀ acc' w2, redis w2 = redis w →
              p ∈ eval (scan_filter c q ql keys acc') w2 →
              (p ∈ acc' → p ∈ acc ∨ ∃ data, redis w !! key = Some data
                                           ∧ Unmarshal data = inr p) →
              p ∈ acc ∨ ∃ key0 data, key0 ∈ key :: keys
                        ∧ redis w !! key0 = Some data ∧ Unmarshal data = inr p).
    { intros acc' w2 Hr Hin Hacc. apply IH in Hin as [Hin|(k & d & Hk & Hd & Hu)].
      - destruct (Hacc Hin) as [?|(d & Hd & Hu)]; [by left|].
        right. exists key, d. split; [by left|done].
      - right. exists k, d. rewrite <- Hr. split; [by right|done]. }
    destruct (eval (redis_Get key) w) as [err|data] eqn:Hg.
    + rewrite bind_run. intros Hin. eapply Hstep; [|exact Hin|by left]. done.
    + specialize (Hget data eq_refl).
      destruct (Unmarshal data) as [err|product] eqn:Hu.
      * rewrite bind_run. intros Hin. eapply Hstep; [|exact Hin|by left]. done.
      * repeat case_match; intros Hin; (eapply Hstep; [exact Hq|exact Hin|]).
        all: try by left.
        intros [Hacc| ->%list_elem_of_singleton]%elem_of_app; [by left|].
        right. by exists data.
Qed.

End Reading.

(** ** The page of the scan path *)

Lemma slice_Ok {A} (l : list A) lo hi :
  0 ≤ lo → lo ≤ hi → hi ≤ Z.of_nat (length l) →
  slice l lo hi = Ok (take (Z.to_nat (hi - lo)) (drop (Z.to_nat lo) l)).
Proof. intros. unfold slice. by rewrite bool_decide_eq_true_2. Qed.

Lemma slice_members {A} (l : list A) lo hi page :
  slice l lo hi = Ok page → page ⊆ l.
Proof.
  unfold slice. case_bool_decide; [|done]. intros [= <-].
  etrans; [apply subseteq_take|apply subseteq_drop].
Qed.

Lemma ListProducts_page_members filtered page pageSize products total :
  ListProducts_page filtered page pageSize = Ok (products, total) →
  products ⊆ filtered ∧ total = wrap32 (Z.of_nat (length filtered)).
Proof.
  unfold ListProducts_page. repeat case_bool_decide; try (intros [= <- <-]).
  all: try (split; [apply list_subseteq_nil|congruence]).
  all: destruct (slice _ _ _) as [ps| | |] eqn:Hs; intros [= <- <-].
  all: split; [by eapply slice_members|done].
Qed.

(** The defaults of the scan path: a page below 1 is read as 1 and a page
    size of 0 or less as 10. *)
Lemma ListProducts_page_defaults filtered page pageSize :
  ListProducts_page filtered page pageSize
  = ListProducts_page filtered (if bool_decide (page < 1) then 1 else page)
      (if bool_decide (pageSize ≤ 0) then 10 else pageSize).
Proof.
  unfold ListProducts_page. repeat case_bool_decide; try done; lia.
Qed.

(** While [(page - 1) * pageSize] fits an [int32], the page is the
    [pageSize] records that follow the first [(page - 1) * pageSize], and
    the total is the number of records. *)
Lemma ListProducts_page_in_range filtered page pageSize :
  1 ≤ page → 1 ≤ pageSize → (page - 1) * pageSize < 2 ^ 31 →
  (0 < length filtered)%nat → Z.of_nat (length filtered) < 2 ^ 31 →
  ListProducts_page filtered page pageSize
  = Ok (take (Z.to_nat pageSize)
          (drop (Z.to_nat ((page - 1) * pageSize)) filtered),
        Z.of_nat (length filtered)).
Proof.
  intros Hpage Hsize Hfit Hpos Hlen. unfold ListProducts_page.
  rewrite (wrap32_small (Z.of_nat (length filtered))) by lia.
  rewrite bool_decide_eq_false_2 by lia.
  rewrite (bool_decide_eq_false_2 (page < 1)) by lia.
  rewrite (bool_decide_eq_false_2 (pageSize ≤ 0)) by lia.
  rewrite (wrap32_small (page - 1)) by nia.
  rewrite (wrap32_small ((page - 1) * pageSize)) by nia.
  case_bool_decide as Hstart.
  - rewrite drop_ge by lia. by rewrite take_nil.
  - case_bool_decide as Hend.
    + rewrite slice_Ok by nia. do 2 f_equal.
      rewrite !take_ge; [done|rewrite length_drop; lia..].
    + rewrite slice_Ok by nia. do 3 f_equal. lia.
Qed.

(** When the [int32] product wraps below zero the slice expression panics,
    whatever the records. *)
Lemma ListProducts_page_negative_start filtered page pageSize :
  wrap32 (Z.of_nat (length filtered)) ≠ 0 →
  wrap32 (wrap32 ((if bool_decide (page < 1) then 1 else page) - 1)
          * (if bool_decide (pageSize ≤ 0) then 10 else pageSize)) < 0 →
  ListProducts_page filtered page pageSize = Panic "slice bounds out of range".
Proof.
  intros Htotal Hneg. unfold ListProducts_page.
  rewrite bool_decide_eq_false_2 by done.
  rewrite (bool_decide_eq_false_2 (_ ≤ wrap32 _)) by lia.
  unfold slice. by rewrite bool_decide_eq_false_2 by lia.
Qed.

(** ** The filter of the scan path *)

Section Filter.
Context `{GoLib}.

Lemma filter_cond c q p :
  (nonempty c && negb (bool_decide (Category p = c)) = false
   ∧ nonempty q
     && (negb (Contains (ToLower (Name p)) (ToLower q))
         && negb (Contains (ToLower (Description p)) (ToLower q))) = false)
  ↔ matches c q p.
Proof.
  unfold matches.
  rewrite !andb_false_iff, !negb_false_iff, !nonempty_false,
    bool_decide_eq_true, !Contains_spec.
  split.
  - intros [Hc Hq]. split.
    + intros Hne. by destruct Hc.
    + intros Hne. destruct Hq as [?|[?|?]]; [done|by left|by right].
  - intros [Hc Hq]. split.
    + destruct (decide (c = "")); [by left|right; by apply Hc].
    + destruct (decide (q = "")) as [?|Hne]; [by left|].
      right. destruct (Hq Hne); [by left|by right].
Qed.

Lemma scan_filter_matches_acc c q keys acc acc0 w p :
  (p ∈ acc ↔ p ∈ acc0 ∧ matches c q p) →
  p ∈ eval (scan_filter c q (ToLower q) keys acc) w
  ↔ p ∈ eval (scan_filter "" "" (ToLower "") keys acc0) w ∧ matches c q p.
Proof.
  revert acc acc0 w. induction keys as [|key keys IH]; intros acc acc0 w Hacc.
  - done.
  - unfold eval in *. simpl. rewrite !bind_run.
    destruct (eval (redis_Get key) w) as [err|data]; [rewrite !bind_run; by apply IH|].
    destruct (Unmarshal data) as [err|p0]; [rewrite !bind_run; by apply IH|].
    pose proof (filter_cond c q p0) as Hcond.
    destruct (nonempty c && negb (bool_decide (Category p0 = c))) eqn:Hc.
    { apply IH. rewrite Hacc, elem_of_app, list_elem_of_singleton.
      split; [intros [? ?]; split; [by left|done]|].
      intros [[?| ->] Hm]; [done|]. apply Hcond in Hm as [? _]. done. }
    destruct (nonempty q && _) eqn:Hq.
    { apply IH. rewrite Hacc, elem_of_app, list_elem_of_singleton.
      split; [intros [? ?]; split; [by left|done]|].
      intros [[?| ->] Hm]; [done|]. apply Hcond in Hm as [_ ?]. done. }
    apply IH. rewrite !elem_of_app, !list_elem_of_singleton, Hacc.
    split.
    + intros [[? ?]| ->]; [split; [by left|done]|].
      split; [by right|]. by apply Hcond.
    + intros [[?| ->] Hm]; [by left|by right].
Qed.

End Filter.

(** ** The book codec *)

Lemma length_strokes n : String.length (strokes n) = n.
Proof. induction n; simpl; congruence. Qed.

Lemma book_lib_laws book : @GoLibLaws (book_lib book).
Proof.
  split. intros p data. simpl. unfold book_Marshal, book_Unmarshal.
  destruct (list_find _ book) as [[i q]|] eqn:Hfind; [|done].
  intros [= <-]. apply list_find_Some in Hfind as (Hi & -> & _).
  by rewrite length_strokes, Hi.
Qed.

(** * The claims *)

(** ** C1: seeding is idempotent *)

(** C1, as stated, fails on the small revision: a store that holds five
    records under IDs of the callers' own meets the minimum of five, and the
    seeding engine still writes the base records. *)
Lemma small_seeding_writes_at_minimum :
  Small.minSeedProducts ≤ Z.of_nat (size (product_ids five_foreign)) ∧
  writes (trace (exec (Small.seedData (H:=lib0) withoutIndex)
                   (calm five_foreign)))
  = [("product:seed-1", strokes 0); ("product:seed-2", strokes 1);
     ("product:seed-3", strokes 2); ("product:seed-4", strokes 3);
     ("product:seed-5", strokes 4)].
Proof. split; [by vm_compute|]. by vm_compute. Qed.

(** C1 (amended): with [target] the configured minimum, the large revision
    writes nothing to a store that holds [target] product IDs; the small
    revision writes nothing to such a store when it also holds every base
    record.  In both revisions a run keeps every record that it finds, and
    after a run that returned without error a second run writes nothing:
    the store, and so the record count, stays as the first run left it.
    [Large.seedData] and [Small.seedData] are the instances at
    [targetSeedProducts] and [minSeedProducts]. *)
Theorem seeding_idempotent `{GoLib} (r : RedisRepository) (minimum : Z)
    (w : World) :
  (minimum ≤ Z.of_nat (size (product_ids (redis w))) →
   quiet w (exec (Large.seedData_to r minimum) w)) ∧
  (minimum ≤ Z.of_nat (size (product_ids (redis w))) →
   (∀ p, p ∈ seedProducts → ID p ∈ product_ids (redis w)) →
   quiet w (exec (Small.seedData_to r minimum) w)) ∧
  preserved w (exec (Large.seedData_to r minimum) w) ∧
  preserved w (exec (Small.seedData_to r minimum) w) ∧
  (∀ w1 w2, Large.seedData_to r minimum w = (Ok tt, w1) →
            redis w2 = redis w1 →
            quiet w2 (exec (Large.seedData_to r minimum) w2)
            ∧ size (product_ids (redis (exec (Large.seedData_to r minimum) w2)))
              = size (product_ids (redis w1))) ∧
  (∀ w1 w2, Small.seedData_to r minimum w = (Ok tt, w1) →
            redis w2 = redis w1 →
            quiet w2 (exec (Small.seedData_to r minimum) w2)
            ∧ size (product_ids (redis (exec (Small.seedData_to r minimum) w2)))
              = size (product_ids (redis w1))).
Proof.
  split; [apply large_seedData_quiet|].
  split.
  { intros Hfull Hbase. apply small_seedData_quiet; [done|]. intros j Hj. lia. }
  split.
  { destruct (Large.seedData_to r minimum w) as [res w'] eqn:Hrun.
    unfold exec. rewrite Hrun. by apply large_seedData_run in Hrun as [? _]. }
  split; [apply small_seedData_preserved|].
  split.
  - intros w1 w2 Hrun Hsame.
    pose proof (large_seedData_again r _ _ _ _ Hrun Hsame) as Hq.
    split; [done|]. destruct Hq as [-> _]. by rewrite Hsame.
  - intros w1 w2 Hrun Hsame.
    pose proof (small_seedData_again r _ _ _ _ Hrun Hsame) as Hq.
    split; [done|]. destruct Hq as [-> _]. by rewrite Hsame.
Qed.

(** The second run of the small revision on an empty store. *)
Lemma seeding_idempotent_witness :
  let w1 := exec (Small.seedData (H:=lib0) withoutIndex) (calm ∅) in
  size (product_ids (redis w1)) = 5%nat ∧
  quiet w1 (exec (Small.seedData (H:=lib0) withoutIndex) w1).
Proof.
  intros w1. split; [by vm_compute|].
  refine (proj1 (proj2 (proj2 (proj2 (proj2 (proj2
    (@seeding_idempotent lib0 withoutIndex Small.minSeedProducts (calm ∅))))))
    w1 w1 _ eq_refl)).
  by vm_compute.
Defined.

(** ** C4: what the verification routine checks *)

(** C4, as stated, fails on the small revision: on a store of five records
    the verification succeeds, and [GetProduct] is never called. *)
Lemma small_verification_only_lists :
  eval (Small.verifySeedData (H:=lib0) withoutIndex) (calm five_foreign)
  = Ok tt ∧
  ∀ id, Invoke (CallGetProduct id)
        ∉ trace (exec (Small.verifySeedData (H:=lib0) withoutIndex)
                   (calm five_foreign)).
Proof.
  split; [by vm_compute|]. intros id.
  replace (trace _) with
    [Log LInfo "Verified product catalog"; RedisGET "product:d";
     RedisGET "product:b"; RedisGET "product:a"; RedisGET "product:e";
     RedisGET "product:c"; RedisKEYS "product:*";
     Invoke (CallListProducts 1 5 "" "")] by by vm_compute.
  rewrite !elem_of_cons, elem_of_nil. intros Hin.
  repeat (destruct Hin as [Hin|Hin]; [discriminate|]). done.
Qed.

(** C4 (amended): the verification succeeds only if the count it observes
    meets the configured minimum and a stored record was read and decoded.
    The large revision counts the keys and reads the record of a sampled key
    through [GetProduct]; the small revision takes both from one listing
    call, whose total meets the minimum and whose page holds a record read
    from the store, and calls [GetProduct] not at all. *)
Theorem verification_checks `{GoLib} (r : RedisRepository) (minimum : Z)
    (w w' : World) :
  (Large.verifySeedData_to minimum w = (Ok tt, w') →
   minimum ≤ Z.of_nat (size (product_ids (redis w)))
   ∧ ∃ id data p, redis w !! keyFor id = Some data
                  ∧ Unmarshal data = inr p
                  ∧ Invoke (CallGetProduct id) ∈ trace w') ∧
  (Small.verifySeedData_to r minimum w = (Ok tt, w') →
   ∃ products total,
     eval (ListProducts r 1 (wrap32 minimum) "" "") w = Ok (products, total)
     ∧ wrap32 minimum ≤ total
     ∧ ∃ p key data, p ∈ products ∧ redis w !! key = Some data
                     ∧ Unmarshal data = inr p).
Proof.
  split.
  - unfold Large.verifySeedData_to. rewrite bind_run. unfold eval, exec.
    unfold Large.countProducts at 1 2.
    destruct (Large.count_loop _ _ _ w) as [res w1] eqn:Hc.
    apply count_loop_run in Hc as [[Hr1 _] Hcount]. cbn [fst snd].
    destruct res as [total| | |]; try by unfold ret.
    specialize (Hcount total eq_refl).
    rewrite scan_batches_concat, <- size_product_ids in Hcount.
    case_bool_decide as Hlow; [by unfold ret|].
    rewrite bind_run. unfold eval, exec. unfold Large.sampleProductID at 1 2.
    destruct (Large.sample_loop _ w1) as [res w2] eqn:Hs.
    apply sample_loop_run in Hs as [[Hr2 _] Hsample]. cbn [fst snd].
    destruct res as [sampleID| | |]; try by unfold ret.
    case_bool_decide as Hempty; [by unfold ret|].
    destruct (Hsample sampleID eq_refl) as [?|(key & Hkey & ->)]; [done|].
    rewrite scan_batches_concat in Hkey.
    apply elem_of_keys_matching in Hkey as [_ Hpre].
    apply prefix_spec in Hpre as [id ->]. rewrite TrimPrefix_app.
    rewrite bind_run. unfold eval, exec.
    destruct (GetProduct id w2) as [got w3] eqn:Hg. cbn [fst snd].
    destruct got as [p| | |]; try by unfold ret.
    apply GetProduct_Ok in Hg as (data & Hdata & Hu & Htr).
    unfold bind, log, emit, ret. cbn [fst snd]. intros [= <-].
    split; [lia|]. exists id, data, p.
    split; [by rewrite <- Hr1, <- Hr2|]. split; [done|].
    cbn. rewrite Htr. right; right; left.
  - unfold Small.verifySeedData_to. rewrite bind_run.
    destruct (eval (ListProducts r 1 (wrap32 minimum) "" "") w)
      as [[products total]| | |] eqn:Hl; try by unfold ret.
    case_bool_decide as Hlow; [by unfold ret|].
    case_bool_decide as Hnone; [by unfold ret|]. intros _.
    exists products, total. split; [done|]. split; [lia|].
    destruct products as [|p products]; [done|]. exists p.
    revert Hl. unfold ListProducts, eval. rewrite bind_run.
    change (nonempty "") with false. cbn [andb]. rewrite bind_run.
    set (w0 := exec (emit _) w).
    destruct (redis_Keys_run productsKeyPrefix w0) as [[Hk|[err Hk]] [Hq _]];
      rewrite Hk; [|by unfold ret].
    rewrite bind_run. unfold ret. cbn [fst].
    intros [Hsub _]%ListProducts_page_members.
    assert (Hin : p ∈ p :: products) by by left.
    apply Hsub, scan_filter_from_store in Hin
      as [Hin|(key & data & _ & Hdata & Hu)].
    { by apply elem_of_nil in Hin. }
    exists key, data. split; [by left|]. split; [|done].
    by rewrite Hq in Hdata.
Qed.

(** The large revision, asked for two records, on a store of five. *)
Lemma verification_checks_witness :
  let w := calm five_foreign in
  2 ≤ Z.of_nat (size (product_ids (redis w)))
  ∧ ∃ id data p, redis w !! keyFor id = Some data
                 ∧ Unmarshal (GoLib:=lib0) data = inr p
                 ∧ Invoke (CallGetProduct id)
                   ∈ trace (exec (Large.verifySeedData_to (H:=lib0) 2) w).
Proof.
  intros w.
  apply (proj1 (@verification_checks lib0 withoutIndex 2 w
                  (exec (Large.verifySeedData_to (H:=lib0) 2) w))).
  by vm_compute.
Defined.

(** ** C5: stored records are not changed *)

(** C5, as stated, fails: [CreateProduct] with the ID of a stored record
    replaces the bytes under its key. *)
Lemma create_overwrites_record :
  redis (calm mug_only) !! keyFor "42" = Some (strokes 5) ∧
  eval (CreateProduct (H:=lib0) withoutIndex mug') (calm mug_only)
  = (mug', None) ∧
  redis (exec (CreateProduct (H:=lib0) withoutIndex mug') (calm mug_only))
    !! keyFor "42" = Some (strokes 6).
Proof. repeat split; by vm_compute. Qed.

(** C5 (amended): [GetProduct] and [ListProducts] leave the store as it is;
    [CreateProduct] changes at most the key of the ID that the record it
    returns carries, replacing what was stored there; seeding, in both
    revisions, keeps every record that it finds. *)
Theorem records_change_only_under_their_id `{GoLib} (r : RedisRepository)
    (w : World) :
  (∀ id, redis (exec (GetProduct id) w) = redis w) ∧
  (∀ page pageSize category searchQuery,
     redis (exec (ListProducts r page pageSize category searchQuery) w)
     = redis w) ∧
  (∀ p k, k ≠ keyFor (ID (eval (CreateProduct r p) w).1) →
          redis (exec (CreateProduct r p) w) !! k = redis w !! k) ∧
  (∀ minimum, preserved w (exec (Large.seedData_to r minimum) w)) ∧
  (∀ minimum, preserved w (exec (Small.seedData_to r minimum) w)).
Proof.
  split; [intros id; apply GetProduct_quiet|].
  split; [intros; apply ListProducts_quiet|].
  split.
  { intros p k Hk. unfold eval, exec in *.
    destruct (CreateProduct r p w) as [[p' e] w'] eqn:Hrun.
    apply CreateProduct_spec in Hrun as [_ Heff]. simpl in *.
    destruct e as [err|]; [by rewrite Heff|].
    destruct Heff as (data & _ & -> & _). by rewrite lookup_insert_ne. }
  split; [|intros; apply small_seedData_preserved].
  intros minimum.
  destruct (Large.seedData_to r minimum w) as [res w'] eqn:Hrun.
  unfold exec. rewrite Hrun. by apply large_seedData_run in Hrun as [? _].
Qed.

(** Creating the mug in a store of five other records leaves the record of
    "a" alone. *)
Lemma records_change_only_under_their_id_witness :
  redis (exec (CreateProduct (H:=lib0) withoutIndex mug) (calm five_foreign))
    !! keyFor "a" = Some (strokes 7).
Proof.
  rewrite (proj1 (proj2 (proj2
    (@records_change_only_under_their_id lib0 withoutIndex
       (calm five_foreign)))) mug (keyFor "a")); by vm_compute.
Defined.

(** ** C6: a created record is read back *)

(** C6: when [CreateProduct] returns without error the record [p'], with
    the ID and the time stamp it assigned, the store holds the bytes that
    encoding/json made of [p'], and a [GetProduct] of that ID on the store
    it left, served by the store, returns what encoding/json decodes from
    those bytes: [p'] itself whenever the bytes decode to [p']. *)
Theorem create_then_get `{GoLib} (r : RedisRepository) (p p' : Product)
    (w w1 w2 : World) :
  CreateProduct r p w = ((p', None), w1) →
  redis w2 = redis w1 →
  hd None (redis_faults w2) = None →
  ∃ data,
    Marshal p' = inr data
    ∧ redis w1 !! keyFor (ID p') = Some data
    ∧ eval (GetProduct (ID p')) w2
      = match Unmarshal data with
        | inr q => Ok q
        | inl cause => Err (Wrapf "failed to unmarshal product: " cause)
        end
    ∧ (Unmarshal data = inr p' → eval (GetProduct (ID p')) w2 = Ok p').
Proof.
  intros Hrun Hsame Hserved.
  apply CreateProduct_spec in Hrun as [_ (data & Hm & Hredis & _)].
  exists data. split; [exact Hm|].
  split; [by rewrite Hredis, lookup_insert_eq|].
  assert (Hget : eval (GetProduct (ID p')) w2
                 = match Unmarshal data with
                   | inr q => Ok q
                   | inl cause =>
                       Err (Wrapf "failed to unmarshal product: " cause)
                   end).
  { unfold GetProduct, eval. rewrite !bind_run.
    set (w3 := exec (emit _) w2).
    rewrite (redis_Get_served (keyFor (ID p')) w3) by done.
    replace (redis w3) with (redis w2) by done.
    rewrite Hsame, Hredis, lookup_insert_eq. by destruct (Unmarshal data). }
  split; [exact Hget|]. intros Hdec. by rewrite Hget, Hdec.
Qed.

(** A record created without an ID: the clock gives it one, and it is read
    back with it. *)
Lemma create_then_get_witness :
  let created :=
    CreateProduct (H:=book_lib shelf) withIndex nameless (calm ∅) in
  ID created.1.1 = "1700000000000000000" ∧ CreatedAt created.1.1 = t0 ∧
  eval (GetProduct (H:=book_lib shelf) (ID created.1.1)) created.2
  = Ok created.1.1.
Proof.
  intros created. split; [by vm_compute|]. split; [by vm_compute|].
  assert (Hrun : CreateProduct (H:=book_lib shelf) withIndex nameless (calm ∅)
                 = ((created.1.1, None), created.2)) by by vm_compute.
  assert (Hserved : hd None (redis_faults created.2) = None) by by vm_compute.
  destruct (@create_then_get (book_lib shelf) withIndex nameless
              created.1.1 (calm ∅) created.2 created.2 Hrun eq_refl Hserved)
    as (data & Hm & _ & _ & Hget).
  apply Hget.
  exact (@Unmarshal_Marshal _ (book_lib_laws shelf) created.1.1 data Hm).
Defined.

(** A record with a name that is no UTF-8 is accepted, and is read back
    with another name: the one that encoding/json makes of it. *)
Lemma create_then_get_coerces_invalid_utf8 :
  let lib := coercing_lib [coerce_product garbled] in
  let created := CreateProduct (H:=lib) withoutIndex garbled (calm ∅) in
  created.1 = (garbled, None)
  ∧ eval (GetProduct (H:=lib) (ID created.1.1)) created.2
    = Ok (coerce_product garbled)
  ∧ Name (coerce_product garbled) = replacement_char
  ∧ coerce_product garbled ≠ created.1.1.
Proof. by vm_compute. Qed.

(** ** C8: a failing index write does not fail the create *)

(** What [CreateProduct] returns and what it leaves in the store, read off
    the world it starts in. *)
Lemma CreateProduct_result `{GoLib} (r : RedisRepository) p w :
  eval (CreateProduct r p) w
  = (stamped p w,
     match Marshal (stamped p w) with
     | inl cause => Some (Wrapf "failed to marshal product: " cause)
     | inr _ =>
         match hd None (redis_faults w) with
         | Some cause => Some (Wrapf "failed to set product: " cause)
         | None => None
         end
     end)
  ∧ redis (exec (CreateProduct r p) w)
    = match Marshal (stamped p w), hd None (redis_faults w) with
      | inr data, None => <[keyFor (ID (stamped p w)) := data]> (redis w)
      | _, _ => redis w
      end.
Proof.
  unfold CreateProduct, stamped, hd.
  destruct (bool_decide (ID p = "")) eqn:Hid;
    [destruct (IsZero (CreatedAt (with_ID _ p))) eqn:Hz
    |destruct (IsZero (CreatedAt p)) eqn:Hz].
  all: cbn [CreatedAt with_ID] in Hz.
  all: split; crush; congruence.
Qed.

(** C8: what [CreateProduct] returns and what it leaves in the store do not
    depend on the outcomes of the index writes; the error it returns is that
    of the encoding or of the store write, so it returns none when the store
    write succeeds, and the record is then stored; and a failed index write
    is logged. *)
Theorem index_failure_does_not_fail_create `{GoLib} (r : RedisRepository)
    (p : Product) (w : World) :
  (∀ outcomes,
     eval (CreateProduct r p) (set_index_faults outcomes w)
     = eval (CreateProduct r p) w
     ∧ redis (exec (CreateProduct r p) (set_index_faults outcomes w))
       = redis (exec (CreateProduct r p) w)) ∧
  (∀ err, (eval (CreateProduct r p) w).2 = Some err →
          (∃ cause, err = Wrapf "failed to marshal product: " cause) ∨
          (∃ cause, err = Wrapf "failed to set product: " cause
                    ∧ hd None (redis_faults w) = Some cause)) ∧
  (∀ data, Marshal (eval (CreateProduct r p) w).1 = inr data →
           hd None (redis_faults w) = None →
           (eval (CreateProduct r p) w).2 = None
           ∧ redis (exec (CreateProduct r p) w)
               !! keyFor (ID (eval (CreateProduct r p) w).1) = Some data) ∧
  (∀ err rest, useIndex r = true →
               (eval (CreateProduct r p) w).2 = None →
               index_faults w = Some err :: rest →
               Log LWarn "Failed to index product"
               ∈ trace (exec (CreateProduct r p) w)).
Proof.
  destruct (CreateProduct_result r p w) as [Hev Hst].
  split; [|split; [|split]].
  - intros outcomes.
    destruct (CreateProduct_result r p (set_index_faults outcomes w))
      as [Hev' Hst'].
    split; [by rewrite Hev, Hev'|by rewrite Hst, Hst'].
  - intros err. rewrite Hev. cbn [snd].
    destruct (Marshal (stamped p w)) as [cause|data]; [intros [= <-]; eauto|].
    destruct (hd None (redis_faults w)) as [cause|]; [|done].
    intros [= <-]. eauto.
  - intros data. rewrite Hst, Hev. cbn [fst snd]. intros -> ->.
    split; [done|]. by rewrite lookup_insert_eq.
  - clear Hev Hst. intros err rest. unfold CreateProduct.
    crush; try congruence. all: by left.
Qed.

(** The index refuses the mug; the create succeeds and the mug is stored. *)
Lemma index_failure_does_not_fail_create_witness :
  let w := set_index_faults [Some (Foreign "index unavailable")] (calm ∅) in
  (eval (CreateProduct (H:=lib0) withIndex mug) w).2 = None ∧
  redis (exec (CreateProduct (H:=lib0) withIndex mug) w) !! keyFor "42"
  = Some (strokes 5) ∧
  Log LWarn "Failed to index product"
  ∈ trace (exec (CreateProduct (H:=lib0) withIndex mug) w).
Proof.
  intros w.
  pose proof (@index_failure_does_not_fail_create lib0 withIndex mug w)
    as (_ & _ & Hstored & Hlogged).
  destruct (Hstored (strokes 5)) as [Hnone Hkey]; [by vm_compute..|].
  split; [exact Hnone|]. split; [exact Hkey|].
  eapply Hlogged; by vm_compute.
Defined.

(** ** C9: a missing ID is not found *)

(** The read of a store that fails is told apart from the read of a missing
    ID. *)
Lemma GetProduct_read_failure `{GoLib} (id : string) (w : World) cause rest :
  redis_faults w = Some cause :: rest →
  errors_Is cause redis_Nil = false →
  eval (GetProduct id) w = Err (Wrapf "failed to get product: " cause).
Proof. unfold GetProduct. crush; congruence. Qed.

(** C9: when the key of [id] is absent from the store and the store serves
    the read, [GetProduct] returns the error "product not found: id".  A
    read that the store fails returns another error, "failed to get
    product", around the cause; the error of a missing ID is neither that one
    nor the one of a failed decoding, and its text differs from theirs. *)
Theorem missing_id_not_found `{GoLib} (id : string) (w : World) :
  redis w !! keyFor id = None →
  hd None (redis_faults w) = None →
  eval (GetProduct id) w = Err (Errorf ("product not found: " +:+ id))
  ∧ (∀ w' cause rest,
       redis_faults w' = Some cause :: rest →
       errors_Is cause redis_Nil = false →
       eval (GetProduct id) w' = Err (Wrapf "failed to get product: " cause)
       ∧ eval (GetProduct id) w' ≠ eval (GetProduct id) w)
  ∧ ∀ cause,
      Errorf ("product not found: " +:+ id)
      ≠ Wrapf "failed to get product: " cause
      ∧ Errorf ("product not found: " +:+ id)
        ≠ Wrapf "failed to unmarshal product: " cause
      ∧ Error (Errorf ("product not found: " +:+ id))
        ≠ Error (Wrapf "failed to get product: " cause)
      ∧ Error (Errorf ("product not found: " +:+ id))
        ≠ Error (Wrapf "failed to unmarshal product: " cause).
Proof.
  intros Habsent Hserved.
  assert (Hmiss : eval (GetProduct id) w
                  = Err (Errorf ("product not found: " +:+ id))).
  { unfold GetProduct, eval. rewrite !bind_run.
    set (w1 := exec (emit _) w).
    rewrite (redis_Get_served (keyFor id) w1) by done.
    replace (redis w1) with (redis w) by done. by rewrite Habsent. }
  split; [exact Hmiss|]. split.
  - intros w' cause rest Hfault Hnot.
    rewrite (GetProduct_read_failure id w' cause rest), Hmiss by done.
    split; [done|discriminate].
  - intros cause. repeat split; try discriminate.
    all: cbn [Error]; rewrite !append_cons; discriminate.
Qed.

Lemma missing_id_not_found_witness :
  eval (GetProduct (H:=lib0) "missing-id") (calm mug_only)
  = Err (Errorf "product not found: missing-id").
Proof.
  apply (@missing_id_not_found lib0 "missing-id" (calm mug_only));
    by vm_compute.
Defined.

(** ** C2: the defaults of the page and of the page size *)

Lemma fetch_docs_keeps_trace `{GoLib} docs acc w e :
  e ∈ trace w → e ∈ trace (exec (fetch_docs docs acc) w).
Proof.
  revert acc w. induction docs as [|doc docs IH]; intros acc w Hin; [done|].
  unfold exec in *. simpl. rewrite bind_run.
  assert (Hget : e ∈ trace (exec (redis_Get doc) w)).
  { unfold exec. crush; by right. }
  repeat case_match; rewrite ?bind_run; apply IH; try done.
  all: by right.
Qed.

(** The query that the indexed path sends: the offset and the limit are
    computed from the page and the page size as they were passed. *)
Lemma ListProducts_indexed_query `{GoLib} r page pageSize category searchQuery
    w :
  nonempty searchQuery && useIndex r = true →
  IndexSearch
    (if nonempty category
     then searchQuery +:+ " @category:{" +:+ category +:+ "}"
     else searchQuery)
    "price" false (wrap32 (wrap32 (page - 1) * pageSize)) pageSize
  ∈ trace (exec (ListProducts r page pageSize category searchQuery) w).
Proof.
  intros Hidx. unfold ListProducts, exec. rewrite bind_run, Hidx, bind_run.
  set (w1 := exec (emit (Invoke _)) w).
  assert (Hsent : IndexSearch
            (if nonempty category
             then searchQuery +:+ " @category:{" +:+ category +:+ "}"
             else searchQuery)
            "price" false (wrap32 (wrap32 (page - 1) * pageSize)) pageSize
          ∈ trace (exec (search_Search
            (if nonempty category
             then searchQuery +:+ " @category:{" +:+ category +:+ "}"
             else searchQuery)
            "price" false (wrap32 (wrap32 (page - 1) * pageSize)) pageSize) w1)).
  { unfold exec. crush; by left. }
  destruct (eval (search_Search _ _ _ _ _) w1) as [err|[docs total]];
    [exact Hsent|].
  rewrite bind_run. by apply fetch_docs_keeps_trace.
Qed.

(** C2 holds on the scan path ([ListProducts_page_defaults]) and fails on
    the indexed path: for page 0 and page size 5 the index is asked for 5
    records from offset -5, where page 1 would give offset 0. *)
Theorem indexed_path_takes_page_as_passed `{GoLib} (w : World) :
  IndexSearch "laptop" "price" false (-5) 5
  ∈ trace (exec (ListProducts withIndex 0 5 "" "laptop") w)
  ∧ IndexSearch "laptop" "price" false 0 5
    ∈ trace (exec (ListProducts withIndex 1 5 "" "laptop") w)
  ∧ ListProducts_page [mug] 0 5 = ListProducts_page [mug] 1 5.
Proof.
  split; [|split].
  - by apply (ListProducts_indexed_query withIndex 0 5 "" "laptop" w).
  - by apply (ListProducts_indexed_query withIndex 1 5 "" "laptop" w).
  - by rewrite ListProducts_page_defaults.
Qed.

(** ** C3 and C10: the pages of the scan path *)

(** C3 holds while [(page - 1) * pageSize] fits an [int32]
    ([ListProducts_page_in_range]) and fails beyond: with one record and
    page size 4, page 1073741825 lies beyond the last page, the product
    [1073741824 * 4] wraps to 0, and the listing returns the first page. *)
Theorem page_beyond_last_returns_first :
  wrap32 (wrap32 (1073741825 - 1) * 4) = 0 ∧
  eval (ListProducts (H:=lib0) withoutIndex 1073741825 4 "" "")
    (calm mug_only)
  = Ok ([mug], 1).
Proof. split; by vm_compute. Qed.

(** C10 fails where the product wraps below zero: with one record, page
    21474838 and page size 100 the start is negative, and the slice
    expression panics instead of returning a page. *)
Theorem page_overflow_panics :
  wrap32 (wrap32 (21474838 - 1) * 100) = -2147483596 ∧
  eval (ListProducts (H:=lib0) withoutIndex 21474838 100 "" "")
    (calm mug_only)
  = Panic "slice bounds out of range".
Proof. split; by vm_compute. Qed.

(** What C10 says of a listing that no record passes holds: the page is
    empty and the total 0, whatever the page and the page size. *)
Lemma ListProducts_page_empty page pageSize :
  ListProducts_page [] page pageSize = Ok ([], 0).
Proof. done. Qed.

(** * Further properties *)

(** ** A store that serves every command *)

Lemma served_next_fault w :
  served w →
  eval next_fault w = None ∧ served (exec next_fault w)
  ∧ redis (exec next_fault w) = redis w
  ∧ trace (exec next_fault w) = trace w.
Proof.
  unfold served, next_fault, eval, exec. intros Hs.
  destruct (redis_faults w) as [|f rest] eqn:Hf; simpl.
  - by rewrite Hf.
  - apply Forall_cons in Hs as [-> Hs]. done.
Qed.

Lemma served_hd w : served w → hd None (redis_faults w) = None.
Proof.
  unfold served. destruct (redis_faults w) as [|f rest]; [done|].
  by intros [-> _]%Forall_cons.
Qed.

Ltac served_prim w Hs :=
  unfold served in *; prim; simpl;
  destruct (redis_faults w) as [|f rest] eqn:Hf; simpl; rewrite ?Hf;
  [|apply Forall_cons in Hs as [-> Hs]]; simpl; rewrite ?Hf; done.

Lemma served_redis_Scan pre n w :
  served w →
  eval (redis_Scan pre n) w = None ∧ served (exec (redis_Scan pre n) w)
  ∧ redis (exec (redis_Scan pre n) w) = redis w.
Proof. intros Hs. served_prim w Hs. Qed.

Lemma served_redis_Get key w :
  served w →
  eval (redis_Get key) w
  = match redis w !! key with Some data => inr data | None => inl redis_Nil end
  ∧ served (exec (redis_Get key) w)
  ∧ redis (exec (redis_Get key) w) = redis w.
Proof. intros Hs. served_prim w Hs. Qed.

Lemma served_redis_Keys pre w :
  served w →
  eval (redis_Keys pre) w = inr (keys_matching pre (redis w))
  ∧ served (exec (redis_Keys pre) w)
  ∧ redis (exec (redis_Keys pre) w) = redis w.
Proof. intros Hs. served_prim w Hs. Qed.

Lemma served_redis_Set key data w :
  served w →
  eval (redis_Set key data) w = None ∧ served (exec (redis_Set key data) w)
  ∧ redis (exec (redis_Set key data) w) = <[key := data]> (redis w).
Proof. intros Hs. served_prim w Hs. Qed.

Lemma calm_served m : served (calm m).
Proof. constructor. Qed.

Lemma served_log lvl msg w : served w → served (exec (log lvl msg) w).
Proof. done. Qed.

(** ** The key scans of the large revision *)

Lemma record_count_keys m :
  record_count m = Z.of_nat (length (keys_matching productsKeyPrefix m)).
Proof. unfold record_count. by rewrite size_product_ids. Qed.

Lemma redis_Scan_outcome pre n w :
  match eval (redis_Scan pre n) w with
  | Some cause => ∃ rest, redis_faults w = Some cause :: rest
  | None => ∀ c, In (Some c) (redis_faults (exec (redis_Scan pre n) w))
                 → In (Some c) (redis_faults w)
  end.
Proof.
  prim. simpl. destruct (redis_faults w) as [|[c|] rest] eqn:Hf; simpl.
  - by rewrite Hf.
  - eauto.
  - intros c Hin. by right.
Qed.

Lemma collect_loop_served batches acc w :
  served w →
  eval (Large.collect_loop batches acc) w
  = Ok (list_to_set ((λ k, TrimPrefix k productsKeyPrefix) <$> concat batches)
        ∪ acc)
  ∧ served (exec (Large.collect_loop batches acc) w).
Proof.
  revert acc w. induction batches as [|keys rest IH]; intros acc w Hs.
  - split; [|done]. unfold eval. simpl. by rewrite (left_id_L ∅ (∪)).
  - unfold eval, exec in *. simpl. rewrite bind_run.
    destruct (served_redis_Scan productsKeyPrefix Large.seedScanBatchSize w Hs)
      as (-> & Hs' & _).
    destruct (IH (foldl (λ acc key, {[TrimPrefix key productsKeyPrefix]} ∪ acc)
                    acc keys) _ Hs') as [-> Hs2].
    split; [|done]. f_equal.
    rewrite foldl_ids, fmap_app, list_to_set_app_L.
    apply set_eq. intros x. rewrite !elem_of_union. tauto.
Qed.

Lemma collect_loop_error batches acc w err :
  eval (Large.collect_loop batches acc) w = Err err →
  ∃ cause, In (Some cause) (redis_faults w)
           ∧ err = Wrapf "failed to scan product keys: " cause.
Proof.
  revert acc w. induction batches as [|keys rest IH]; intros acc w; [done|].
  unfold eval in *. simpl. rewrite bind_run.
  pose proof (redis_Scan_outcome productsKeyPrefix Large.seedScanBatchSize w)
    as Hout.
  destruct (eval (redis_Scan _ _) w) as [cause|].
  - destruct Hout as [tail Hf]. intros [= <-]. exists cause.
    split; [|done]. rewrite Hf. by left.
  - intros (cause & Hin & ->)%IH. eauto.
Qed.

(** X1: the scan that collects the IDs brings every ID of the store, whatever
    the batches, when no command fails; a failed command ends it with the
    error "failed to scan product keys" around its cause; in every case
    nothing is written. *)
Theorem collectExistingProductIDs_complete (w : World) :
  quiet w (exec Large.collectExistingProductIDs w) ∧
  (served w →
   eval Large.collectExistingProductIDs w = Ok (product_ids (redis w))) ∧
  (∀ ids, eval Large.collectExistingProductIDs w = Ok ids →
          ids = product_ids (redis w)) ∧
  (∀ err, eval Large.collectExistingProductIDs w = Err err →
          ∃ cause, In (Some cause) (redis_faults w)
                   ∧ err = Wrapf "failed to scan product keys: " cause).
Proof.
  destruct (Large.collectExistingProductIDs w) as [res w'] eqn:Hrun.
  pose proof (collectExistingProductIDs_run _ _ _ Hrun) as [Hq Hok].
  unfold eval, exec. rewrite Hrun. cbn [fst snd].
  split; [done|]. split; [|split].
  - intros Hs. unfold Large.collectExistingProductIDs in Hrun.
    destruct (collect_loop_served
                (scan_batches productsKeyPrefix Large.seedScanBatchSize (redis w))
                ∅ w Hs) as [He _].
    unfold eval in He. rewrite Hrun in He. cbn [fst] in He. rewrite He.
    by rewrite scan_batches_concat, (right_id_L ∅ (∪)).
  - intros ids ->. by apply Hok.
  - intros err ->.
    apply (collect_loop_error
             (scan_batches productsKeyPrefix Large.seedScanBatchSize (redis w))
             ∅ w).
    unfold Large.collectExistingProductIDs in Hrun. unfold eval.
    by rewrite Hrun.
Qed.

(** The IDs of a store of five records. *)
Lemma collectExistingProductIDs_complete_witness :
  eval Large.collectExistingProductIDs (calm five_foreign)
  = Ok (product_ids five_foreign).
Proof.
  apply (proj1 (proj2 (collectExistingProductIDs_complete (calm five_foreign)))).
  apply calm_served.
Defined.

Lemma count_loop_served shortCircuitAt batches total w :
  served w →
  ∃ n, eval (Large.count_loop shortCircuitAt batches total) w = Ok n
       ∧ served (exec (Large.count_loop shortCircuitAt batches total) w)
       ∧ (n = total + Z.of_nat (length (concat batches))
          ∨ 0 < shortCircuitAt ∧ shortCircuitAt ≤ n
            ∧ n ≤ total + Z.of_nat (length (concat batches))).
Proof.
  revert total w. induction batches as [|keys rest IH]; intros total w Hs.
  - exists total. split; [done|]. split; [done|]. left. simpl. lia.
  - unfold eval, exec in *. simpl. rewrite bind_run.
    destruct (served_redis_Scan productsKeyPrefix Large.seedScanBatchSize w Hs)
      as (-> & Hs' & _).
    rewrite length_app.
    destruct (bool_decide (0 < shortCircuitAt)
              && bool_decide (shortCircuitAt ≤ total + Z.of_nat (length keys)))
      eqn:Hcut.
    + exists (total + Z.of_nat (length keys)). split; [done|]. split; [done|].
      apply andb_true_iff in Hcut as [?%bool_decide_eq_true ?%bool_decide_eq_true].
      right. lia.
    + destruct (IH (total + Z.of_nat (length keys)) _ Hs')
        as (n & -> & Hs2 & Hn).
      exists n. split; [done|]. split; [done|]. lia.
Qed.

(** X2: with no failing command, [countProducts] never counts more records
    than the store holds; it counts all of them when asked for no
    short-circuit or when the store holds fewer than [shortCircuitAt]; and
    it reaches [shortCircuitAt] when the store holds that many.  So its
    result is at least a positive [shortCircuitAt] exactly when the store
    holds that many records. *)
Theorem countProducts_threshold (shortCircuitAt : Z) (w : World) :
  served w →
  ∃ n, eval (Large.countProducts shortCircuitAt) w = Ok n
       ∧ n ≤ record_count (redis w)
       ∧ (shortCircuitAt ≤ 0 ∨ record_count (redis w) < shortCircuitAt →
          n = record_count (redis w))
       ∧ (shortCircuitAt ≤ n ↔ shortCircuitAt ≤ record_count (redis w)).
Proof.
  intros Hs. unfold Large.countProducts.
  destruct (count_loop_served shortCircuitAt
              (scan_batches productsKeyPrefix Large.seedScanBatchSize (redis w))
              0 w Hs) as (n & Hn & _ & Hcases).
  exists n. split; [exact Hn|].
  rewrite scan_batches_concat, <- record_count_keys in Hcases.
  repeat split; lia.
Qed.

Lemma countProducts_threshold_witness :
  ∃ n, eval (Large.countProducts 3) (calm five_foreign) = Ok n
       ∧ n ≤ record_count five_foreign
       ∧ (3 ≤ 0 ∨ record_count five_foreign < 3 → n = record_count five_foreign)
       ∧ (3 ≤ n ↔ 3 ≤ record_count five_foreign).
Proof. exact (countProducts_threshold 3 (calm five_foreign) (calm_served _)). Defined.

(** The first batch of a scan that asks for at least one key a time starts
    with the first key. *)
Lemma chunks_head fuel n key keys :
  (0 < n)%nat →
  ∃ batch rest, chunks fuel n (key :: keys) = (key :: batch) :: rest.
Proof.
  intros Hn. destruct fuel as [|fuel]; simpl; [by eauto|].
  case_bool_decide; [by eauto|].
  destruct n as [|n]; [lia|]. simpl. eauto.
Qed.

(** X3: with no failing command, [sampleProductID] returns the ID of the first
    key of the scan, which is the ID of a stored record, and the empty ID
    for a store without records. *)
Theorem sampleProductID_stored (w : World) :
  served w →
  eval Large.sampleProductID w
  = Ok (match keys_matching productsKeyPrefix (redis w) with
        | [] => ""
        | key :: _ => TrimPrefix key productsKeyPrefix
        end)
  ∧ ∀ id, eval Large.sampleProductID w = Ok id →
          record_count (redis w) = 0 ∧ id = ""
          ∨ is_Some (redis w !! keyFor id).
Proof.
  intros Hs.
  assert (Hval : eval Large.sampleProductID w
    = Ok (match keys_matching productsKeyPrefix (redis w) with
          | [] => ""
          | key :: _ => TrimPrefix key productsKeyPrefix
          end)).
  { unfold Large.sampleProductID, scan_batches, eval.
    destruct (keys_matching productsKeyPrefix (redis w)) as [|key keys].
    - simpl. rewrite bind_run.
      destruct (served_redis_Scan productsKeyPrefix Large.seedScanBatchSize
                  w Hs) as (-> & _). done.
    - destruct (chunks_head (length (key :: keys))
                  (Z.to_nat Large.seedScanBatchSize) key keys)
        as (batch & rest & ->); [unfold Large.seedScanBatchSize; lia|].
      simpl. rewrite bind_run.
      destruct (served_redis_Scan productsKeyPrefix Large.seedScanBatchSize
                  w Hs) as (-> & _). done. }
  split; [exact Hval|]. rewrite Hval. intros id [= <-].
  rewrite record_count_keys.
  destruct (keys_matching productsKeyPrefix (redis w)) as [|key keys] eqn:Hk.
  - by left.
  - right. assert (Hin : key ∈ keys_matching productsKeyPrefix (redis w))
      by (rewrite Hk; by left).
    apply elem_of_keys_matching in Hin as [Hsome Hpre].
    apply prefix_spec in Hpre as [id ->]. by rewrite TrimPrefix_app.
Qed.

Lemma sampleProductID_stored_witness :
  is_Some (redis (calm mug_only) !! keyFor "42")
  ∧ eval Large.sampleProductID (calm mug_only) = Ok "42".
Proof.
  pose proof (sampleProductID_stored (calm mug_only) (calm_served _)) as [Hv _].
  split; [exists (strokes 5); by vm_compute|].
  etrans; [exact Hv|]. by vm_compute.
Defined.

(** ** Listings *)

Lemma ListProducts_page_bounded (filtered : list Product) page pageSize :
  1 ≤ page → 1 ≤ pageSize → (page - 1) * pageSize < 2 ^ 31 →
  ∃ products total,
    ListProducts_page filtered page pageSize = Ok (products, total)
    ∧ Z.of_nat (length products) ≤ pageSize.
Proof.
  intros Hp Hs Hfit. unfold ListProducts_page.
  case_bool_decide; [exists [], 0; simpl; split; [done|lia]|].
  rewrite (bool_decide_eq_false_2 (page < 1)) by lia.
  rewrite (bool_decide_eq_false_2 (pageSize ≤ 0)) by lia.
  rewrite (wrap32_small (page - 1)) by nia.
  rewrite (wrap32_small ((page - 1) * pageSize)) by nia.
  case_bool_decide; [eexists [], _; simpl; split; [done|lia]|].
  case_bool_decide.
  - rewrite slice_Ok by nia. eexists _, _. split; [done|].
    rewrite length_take. lia.
  - rewrite slice_Ok by nia. eexists _, _. split; [done|].
    rewrite length_take. lia.
Qed.

Section Listing.
Context `{GoLib}.

Lemma passes_matches c q p : passes c q p = true ↔ matches c q p.
Proof.
  rewrite <- filter_cond. unfold passes.
  rewrite andb_true_iff, !negb_true_iff. done.
Qed.

Lemma scan_filter_served c q keys acc w :
  served w →
  eval (scan_filter c q (ToLower q) keys acc) w
  = acc ++ filter (λ p, passes c q p = true)
             (omap (stored_record (redis w)) keys)
  ∧ served (exec (scan_filter c q (ToLower q) keys acc) w).
Proof.
  revert acc w. induction keys as [|key keys IH]; intros acc w Hs.
  - split; [|done]. unfold eval. simpl. by rewrite app_nil_r.
  - unfold eval, exec in *. cbn [scan_filter omap list_omap]. rewrite bind_run.
    destruct (served_redis_Get key w Hs) as (-> & Hs1 & Hr1).
    set (w1 := exec (redis_Get key) w) in *.
    unfold stored_record at 1. fold (omap (stored_record (redis w)) keys).
    destruct (redis w !! key) as [data|]; cbn [filter list_filter].
    + destruct (Unmarshal data) as [err|p].
      * rewrite bind_run. rewrite <- Hr1.
        exact (IH acc (exec (log LWarn _) w1) Hs1).
      * rewrite <- Hr1. cbv zeta.
        destruct (nonempty c && negb (bool_decide (Category p = c))) eqn:HA.
        { rewrite filter_cons_False; [by apply IH|].
          unfold passes. by rewrite HA. }
        destruct (nonempty q && _) eqn:HB.
        { rewrite filter_cons_False; [by apply IH|].
          unfold passes. by rewrite HA, HB. }
        rewrite filter_cons_True by (unfold passes; by rewrite HA, HB).
        destruct (IH (acc ++ [p]) w1 Hs1) as [-> Hs2]. split; [|done].
        by rewrite <- app_assoc.
    + rewrite bind_run. rewrite <- Hr1.
      exact (IH acc (exec (log LWarn _) w1) Hs1).
Qed.

Lemma fetch_docs_served docs acc w :
  served w →
  eval (fetch_docs docs acc) w = acc ++ omap (stored_record (redis w)) docs
  ∧ served (exec (fetch_docs docs acc) w).
Proof.
  revert acc w. induction docs as [|doc docs IH]; intros acc w Hs.
  - split; [|done]. unfold eval. simpl. by rewrite app_nil_r.
  - unfold eval, exec in *. cbn [fetch_docs omap list_omap]. rewrite bind_run.
    destruct (served_redis_Get doc w Hs) as (-> & Hs1 & Hr1).
    set (w1 := exec (redis_Get doc) w) in *.
    unfold stored_record at 1. fold (omap (stored_record (redis w)) docs).
    destruct (redis w !! doc) as [data|].
    + destruct (Unmarshal data) as [err|p].
      * rewrite bind_run. rewrite <- Hr1.
        exact (IH acc (exec (log LWarn _) w1) Hs1).
      * rewrite <- Hr1. destruct (IH (acc ++ [p]) w1 Hs1) as [-> Hs2].
        split; [|done]. by rewrite <- app_assoc.
    + rewrite bind_run. rewrite <- Hr1.
      exact (IH acc (exec (log LWarn _) w1) Hs1).
Qed.

Lemma ListProducts_page_no_error filtered page pageSize err :
  ListProducts_page filtered page pageSize ≠ Err err.
Proof.
  unfold ListProducts_page, slice. repeat case_bool_decide; done.
Qed.

Lemma ListProducts_scan_eval (r : RedisRepository) (page pageSize : Z)
    (category searchQuery : string) (w : World) :
  nonempty searchQuery && useIndex r = false →
  served w →
  eval (ListProducts r page pageSize category searchQuery) w
  = ListProducts_page
      (filter (λ p, passes category searchQuery p = true)
         (omap (stored_record (redis w))
            (keys_matching productsKeyPrefix (redis w))))
      page pageSize.
Proof.
  intros Hscan Hs.
  unfold ListProducts, eval. rewrite bind_run, Hscan, bind_run.
  set (w0 := exec (emit _) w).
  destruct (served_redis_Keys productsKeyPrefix w0 Hs) as (-> & Hs1 & Hr1).
  rewrite bind_run.
  destruct (scan_filter_served category searchQuery
              (keys_matching productsKeyPrefix (redis w0)) []
              (exec (redis_Keys productsKeyPrefix) w0) Hs1) as [-> _].
  unfold ret. cbn [fst]. by rewrite Hr1.
Qed.

(** X4: on the scan path, with a store that serves every command, the listing is
    a function of the store: the records are those that are stored under
    the keys of the prefix, can be decoded and pass the filter, in the order
    of the keys; the total is their number; and, while
    [(page - 1) * pageSize] fits an [int32], the page holds the [pageSize]
    records that follow the first [(page - 1) * pageSize]. *)
Theorem ListProducts_scan_served (r : RedisRepository) (page pageSize : Z)
    (category searchQuery : string) (w : World) :
  nonempty searchQuery && useIndex r = false →
  served w →
  let filtered :=
    filter (λ p, passes category searchQuery p = true)
      (omap (stored_record (redis w))
         (keys_matching productsKeyPrefix (redis w))) in
  eval (ListProducts r page pageSize category searchQuery) w
  = ListProducts_page filtered page pageSize
  ∧ (1 ≤ page → 1 ≤ pageSize → (page - 1) * pageSize < 2 ^ 31 →
     (0 < length filtered)%nat → Z.of_nat (length filtered) < 2 ^ 31 →
     eval (ListProducts r page pageSize category searchQuery) w
     = Ok (take (Z.to_nat pageSize)
             (drop (Z.to_nat ((page - 1) * pageSize)) filtered),
           Z.of_nat (length filtered))).
Proof.
  intros Hscan Hs filtered.
  pose proof (ListProducts_scan_eval r page pageSize category searchQuery w
                Hscan Hs) as Hval.
  fold filtered in Hval.
  split; [exact Hval|]. intros. rewrite Hval.
  by apply ListProducts_page_in_range.
Qed.

(** X5: on the indexed path, with a store that serves every command, the page
    holds the records of the keys that the index matched, in the order of
    the index, without those that are missing from the store or cannot be
    decoded; the total is the one of the index, whatever the page holds. *)
Theorem ListProducts_indexed_served (r : RedisRepository) (page pageSize : Z)
    (category searchQuery : string) (w : World) docs total :
  nonempty searchQuery && useIndex r = true →
  served w →
  hd (inr ([], 0)) (search_replies w) = inr (docs, total) →
  eval (ListProducts r page pageSize category searchQuery) w
  = Ok (omap (stored_record (redis w)) docs, wrap32 total).
Proof.
  intros Hidx Hs Hreply.
  unfold ListProducts, eval. rewrite bind_run, Hidx, bind_run.
  set (w0 := exec (emit _) w).
  match goal with
  | |- context [search_Search ?a ?b ?c ?d ?e] =>
      set (call := search_Search a b c d e)
  end.
  assert (Hcall : eval call w0 = inr (docs, total)
                  ∧ served (exec call w0) ∧ redis (exec call w0) = redis w).
  { unfold call, search_Search, eval, exec, bind, emit. simpl.
    change (search_replies w0) with (search_replies w) in *.
    destruct (search_replies w) as [|reply rest]; simpl in *.
    - by injection Hreply as <- <-.
    - by subst reply. }
  destruct Hcall as (-> & Hs1 & Hr1). rewrite bind_run.
  destruct (fetch_docs_served docs [] (exec call w0) Hs1) as [-> _].
  unfold ret. cbn [fst]. by rewrite Hr1.
Qed.

End Listing.

(** The third page of two of the seeded catalog. *)
Lemma ListProducts_scan_served_witness :
  let w := exec (Small.seedData (H:=lib0) withoutIndex) (calm ∅) in
  let filtered :=
    filter (λ p, passes (H:=lib0) "" "" p = true)
      (omap (stored_record (H:=lib0) (redis w))
         (keys_matching productsKeyPrefix (redis w))) in
  eval (ListProducts (H:=lib0) withoutIndex 3 2 "" "") w
  = Ok (take (Z.to_nat 2) (drop (Z.to_nat ((3 - 1) * 2)) filtered),
        Z.of_nat (length filtered)).
Proof.
  intros w filtered.
  assert (Hs : served w).
  { unfold served. replace (redis_faults w) with (@nil (option error))
      by by vm_compute. constructor. }
  apply (proj2 (@ListProducts_scan_served lib0 withoutIndex 3 2 "" "" w
                  eq_refl Hs)); try lia.
  - apply Nat.ltb_lt. by vm_compute.
  - by vm_compute.
Defined.

(** The index matched the mug and a key that is gone. *)
Lemma ListProducts_indexed_served_witness :
  let w := set_search_replies [inr (["product:42"; "product:gone"], 7)]
             (calm mug_only) in
  eval (ListProducts (H:=lib0) withIndex 1 10 "" "mug") w = Ok ([mug], 7).
Proof.
  intros w.
  etrans; [apply (@ListProducts_indexed_served lib0 withIndex 1 10 "" "mug" w
                    ["product:42"; "product:gone"] 7); by vm_compute|].
  by vm_compute.
Defined.

(** ** C7: the filter of the scan path *)

Lemma scan_filter_sound `{GoLib} c q keys w p :
  p ∈ eval (scan_filter c q (ToLower q) keys []) w →
  matches c q p ∧ ∃ key, key ∈ keys ∧ stored_record (redis w) key = Some p.
Proof.
  intros Hp. split.
  - apply (scan_filter_matches_acc c q keys [] []) in Hp as [_ Hm]; [done|].
    rewrite elem_of_nil. tauto.
  - apply scan_filter_from_store in Hp as [Hp|(key & data & Hk & Hd & Hu)];
      [by apply elem_of_nil in Hp|].
    exists key. split; [done|]. unfold stored_record. by rewrite Hd, Hu.
Qed.

Lemma scan_filter_complete `{GoLib} c q keys w p :
  served w →
  p ∈ eval (scan_filter c q (ToLower q) keys []) w
  ↔ ∃ key, key ∈ keys ∧ stored_record (redis w) key = Some p
           ∧ matches c q p.
Proof.
  intros Hs. destruct (scan_filter_served c q keys [] w Hs) as [-> _].
  rewrite app_nil_l, list_elem_of_filter, list_elem_of_omap, passes_matches.
  split.
  - intros (Hm & key & Hk & Hrec). by exists key.
  - intros (key & Hk & Hrec & Hm). split; [done|]. by exists key.
Qed.

(** C7: every record of the filtered set of the scan is stored under one
    of the scanned keys and passes the filter of the specification; when
    the store serves every read, the filtered set holds exactly the
    records that are stored under the scanned keys, can be decoded and
    pass that filter.  So a listing on the scan path returns only records
    that pass it, of the category asked for when there is one, and, the
    store serving, its page is cut from exactly the stored records of the
    prefix that pass it. *)
Theorem scan_filter_exact `{GoLib} (r : RedisRepository)
    (category searchQuery : string) (w : World) :
  (∀ keys p,
     p ∈ eval (scan_filter category searchQuery (ToLower searchQuery) keys [])
           w →
     matches category searchQuery p
     ∧ ∃ key, key ∈ keys ∧ stored_record (redis w) key = Some p) ∧
  (served w →
   ∀ keys p,
     p ∈ eval (scan_filter category searchQuery (ToLower searchQuery) keys [])
           w
     ↔ ∃ key, key ∈ keys ∧ stored_record (redis w) key = Some p
              ∧ matches category searchQuery p) ∧
  (∀ page pageSize products total,
     nonempty searchQuery && useIndex r = false →
     eval (ListProducts r page pageSize category searchQuery) w
     = Ok (products, total) →
     ∀ p, p ∈ products →
          matches category searchQuery p
          ∧ (category ≠ "" → Category p = category)) ∧
  (served w →
   nonempty searchQuery && useIndex r = false →
   ∀ page pageSize,
     ∃ filtered,
       eval (ListProducts r page pageSize category searchQuery) w
       = ListProducts_page filtered page pageSize
       ∧ ∀ p, p ∈ filtered
              ↔ ∃ key, key ∈ keys_matching productsKeyPrefix (redis w)
                       ∧ stored_record (redis w) key = Some p
                       ∧ matches category searchQuery p).
Proof.
  split; [|split; [|split]].
  - intros keys p. apply scan_filter_sound.
  - intros Hs keys p. by apply scan_filter_complete.
  - intros page pageSize products total Hscan.
    unfold ListProducts, eval. rewrite bind_run, Hscan, bind_run.
    destruct (eval (redis_Keys productsKeyPrefix) _) as [err|keys];
      [by unfold ret|].
    rewrite bind_run. unfold ret. cbn [fst].
    intros [Hsub _]%ListProducts_page_members p Hp.
    apply Hsub in Hp. apply scan_filter_sound in Hp as [Hm _].
    split; [exact Hm|]. apply Hm.
  - intros Hs Hscan page pageSize. eexists. split.
    + by apply ListProducts_scan_eval.
    + intros p.
      rewrite list_elem_of_filter, list_elem_of_omap, passes_matches.
      split.
      * intros (Hm & key & Hk & Hrec). by exists key.
      * intros (key & Hk & Hrec & Hm). split; [done|]. by exists key.
Qed.

(** The electronics of the seeded catalog. *)
Lemma scan_filter_exact_witness :
  let w := exec (Small.seedData (H:=lib0) withoutIndex) (calm ∅) in
  ∃ products,
    eval (ListProducts (H:=lib0) withoutIndex 1 10 "Electronics" "") w
    = Ok (products, 2) ∧
    ∀ p, p ∈ products → Category p = "Electronics".
Proof.
  intros w. eexists. split; [by vm_compute|].
  intros p Hp.
  eapply (proj1 (proj2 (proj2
            (@scan_filter_exact lib0 withoutIndex "Electronics" "" w)))
            1 10 _ 2); [by vm_compute|by vm_compute|exact Hp|done].
Defined.

(** On the indexed path the records are those that the index names: with
    an index that names the key of a record of the category "Home" for a
    search in the category "Electronics", the listing returns that
    record. *)
Lemma indexed_listing_keeps_other_category :
  let w := set_search_replies [inr (["product:42"], 1)] (calm mug_only) in
  eval (ListProducts (H:=lib0) withIndex 1 10 "Electronics" "mug") w
  = Ok ([mug], 1)
  ∧ Category mug = "Home" ∧ Category mug ≠ "Electronics".
Proof. by vm_compute. Qed.

Section Listing2.
Context `{GoLib}.

Lemma redis_Get_trace key w :
  trace (exec (redis_Get key) w) = RedisGET key :: trace w.
Proof. crush. Qed.

Lemma fetch_docs_events docs acc w :
  ∃ new, Forall (λ e, is_read_or_log e = true) new
         ∧ trace (exec (fetch_docs docs acc) w) = new ++ trace w.
Proof.
  revert acc w. induction docs as [|doc docs IH]; intros acc w.
  - exists []. by split.
  - unfold exec in *. cbn [fetch_docs]. rewrite bind_run.
    pose proof (redis_Get_trace doc w) as Hget.
    set (w1 := exec (redis_Get doc) w) in *.
    assert (Hnext : ∀ acc' w2 more,
              Forall (λ e, is_read_or_log e = true) more →
              trace w2 = more ++ trace w →
              ∃ new, Forall (λ e, is_read_or_log e = true) new
                     ∧ trace (fetch_docs docs acc' w2).2 = new ++ trace w).
    { intros acc' w2 more Hmore Htr. destruct (IH acc' w2) as (new & Hnew & ->).
      exists (new ++ more). split; [by apply Forall_app|].
      by rewrite Htr, app_assoc. }
    destruct (eval (redis_Get doc) w) as [err|data].
    + rewrite bind_run.
      apply (Hnext _ _ [Log LWarn "Failed to get product"; RedisGET doc]).
      * by repeat constructor.
      * unfold exec, log, emit. simpl. fold w1. by rewrite Hget.
    + destruct (Unmarshal data) as [err|p].
      * rewrite bind_run.
        apply (Hnext _ _ [Log LWarn "Failed to unmarshal product"; RedisGET doc]).
        -- by repeat constructor.
        -- unfold exec, log, emit. simpl. fold w1. by rewrite Hget.
      * apply (Hnext _ _ [RedisGET doc]); [by repeat constructor|done].
Qed.

Lemma scan_filter_events c q ql keys acc w :
  ∃ new, Forall (λ e, is_read_or_log e = true) new
         ∧ trace (exec (scan_filter c q ql keys acc) w) = new ++ trace w.
Proof.
  revert acc w. induction keys as [|key keys IH]; intros acc w.
  - exists []. by split.
  - unfold exec in *. cbn [scan_filter]. rewrite bind_run.
    pose proof (redis_Get_trace key w) as Hget.
    set (w1 := exec (redis_Get key) w) in *.
    assert (Hnext : ∀ acc' w2 more,
              Forall (λ e, is_read_or_log e = true) more →
              trace w2 = more ++ trace w →
              ∃ new, Forall (λ e, is_read_or_log e = true) new
                     ∧ trace (scan_filter c q ql keys acc' w2).2
                       = new ++ trace w).
    { intros acc' w2 more Hmore Htr. destruct (IH acc' w2) as (new & Hnew & ->).
      exists (new ++ more). split; [by apply Forall_app|].
      by rewrite Htr, app_assoc. }
    destruct (eval (redis_Get key) w) as [err|data].
    + rewrite bind_run.
      apply (Hnext _ _ [Log LWarn "Failed to get product"; RedisGET key]).
      * by repeat constructor.
      * unfold exec, log, emit. simpl. fold w1. by rewrite Hget.
    + destruct (Unmarshal data) as [err|p].
      * rewrite bind_run.
        apply (Hnext _ _ [Log LWarn "Failed to unmarshal product"; RedisGET key]).
        -- by repeat constructor.
        -- unfold exec, log, emit. simpl. fold w1. by rewrite Hget.
      * repeat case_match;
          (apply (Hnext _ _ [RedisGET key]); [by repeat constructor|done]).
Qed.

(** X6: [ListProducts] sends one query: to the index when there is a search
    text and the index is enabled, and else a KEYS command to the store.
    What follows are reads of single records and log lines only, so neither
    path falls back on the other.  The call returns an error only when that
    query fails; it then reads nothing more. *)
Theorem ListProducts_one_query (r : RedisRepository) (page pageSize : Z)
    (category searchQuery : string) (w : World) :
  ∃ new,
    Forall (λ e, is_read_or_log e = true) new
    ∧ trace (exec (ListProducts r page pageSize category searchQuery) w)
      = new
        ++ (if nonempty searchQuery && useIndex r
            then IndexSearch
                   (if nonempty category
                    then searchQuery +:+ " @category:{" +:+ category +:+ "}"
                    else searchQuery)
                   "price" false (wrap32 (wrap32 (page - 1) * pageSize))
                   pageSize
            else RedisKEYS "product:*")
        :: Invoke (CallListProducts page pageSize category searchQuery)
        :: trace w
    ∧ ∀ err,
        eval (ListProducts r page pageSize category searchQuery) w = Err err →
        new = []
        ∧ ∃ cause,
            err = Wrapf (if nonempty searchQuery && useIndex r
                         then "search failed: " else "failed to get keys: ")
                    cause.
Proof.
  unfold ListProducts, eval, exec. rewrite bind_run.
  set (w0 := exec (emit _) w).
  destruct (nonempty searchQuery && useIndex r) eqn:Hpath.
  - rewrite bind_run.
    match goal with
    | |- context [search_Search ?a ?b ?c ?d ?e] =>
        set (call := search_Search a b c d e)
    end.
    assert (Htr : trace (exec call w0)
                  = IndexSearch
                      (if nonempty category
                       then searchQuery +:+ " @category:{" +:+ category +:+ "}"
                       else searchQuery)
                      "price" false (wrap32 (wrap32 (page - 1) * pageSize))
                      pageSize
                    :: Invoke (CallListProducts page pageSize category
                                 searchQuery) :: trace w).
    { unfold call. crush. }
    destruct (eval call w0) as [cause|[docs total]].
    + exists []. split; [constructor|]. split; [exact Htr|].
      intros err [= <-]. eauto.
    + rewrite bind_run.
      destruct (fetch_docs_events docs [] (exec call w0)) as (new & Hnew & Hf).
      exists new. split; [done|]. unfold ret. cbn [fst snd].
      rewrite Hf, Htr. split; [done|]. by intros err.
  - rewrite bind_run.
    assert (Htr : trace (exec (redis_Keys productsKeyPrefix) w0)
                  = RedisKEYS "product:*"
                    :: Invoke (CallListProducts page pageSize category
                                 searchQuery) :: trace w).
    { crush. }
    destruct (eval (redis_Keys productsKeyPrefix) w0) as [cause|keys].
    + exists []. split; [constructor|]. split; [exact Htr|].
      intros err [= <-]. eauto.
    + rewrite bind_run.
      destruct (scan_filter_events category searchQuery (ToLower searchQuery)
                  keys [] (exec (redis_Keys productsKeyPrefix) w0))
        as (new & Hnew & Hf).
      exists new. split; [done|]. unfold ret. cbn [fst snd].
      rewrite Hf, Htr. split; [done|]. intros err Herr.
      by apply ListProducts_page_no_error in Herr.
Qed.

End Listing2.

Section Corrupt.
Context `{GoLib}.

Lemma scan_filter_logs_undecodable c q ql keys acc w key data cause :
  served w → key ∈ keys →
  redis w !! key = Some data → Unmarshal data = inl cause →
  Log LWarn "Failed to unmarshal product"
  ∈ trace (exec (scan_filter c q ql keys acc) w).
Proof.
  revert acc w. induction keys as [|k keys IH]; intros acc w Hs Hin Hdata Hu.
  - by apply elem_of_nil in Hin.
  - unfold exec in *. cbn [scan_filter]. rewrite bind_run.
    destruct (served_redis_Get k w Hs) as (Hget & Hs1 & Hr1).
    rewrite Hget. set (w1 := exec (redis_Get k) w) in *.
    apply elem_of_cons in Hin as [<-|Hin].
    + rewrite Hdata, Hu, bind_run.
      destruct (scan_filter_events c q ql keys acc
                  (exec (log LWarn "Failed to unmarshal product") w1))
        as (new & _ & Htr).
      unfold exec at 1 in Htr. rewrite Htr.
      apply elem_of_app. right. by left.
    + assert (Hgo : ∀ acc' w2, served w2 → redis w2 = redis w →
                Log LWarn "Failed to unmarshal product"
                ∈ trace (scan_filter c q ql keys acc' w2).2).
      { intros acc' w2 Hs2 Hr2. apply IH; [done..|by rewrite Hr2|done]. }
      destruct (redis w !! k) as [d|].
      * destruct (Unmarshal d); [rewrite bind_run; by apply Hgo|].
        repeat case_match; by apply Hgo.
      * rewrite bind_run. by apply Hgo.
Qed.

Lemma omap_without {A B} `{EqDecision A} (f : A → option B) (x : A)
    (l : list A) :
  f x = None → omap f (filter (λ y, y ≠ x) l) = omap f l.
Proof.
  intros Hx. induction l as [|y l IH]; [done|].
  destruct (decide (y = x)) as [->|Hne].
  - rewrite filter_cons_False by (intros Hy; by apply Hy).
    cbn [omap list_omap]. fold (omap f l). by rewrite Hx.
  - rewrite filter_cons_True by done.
    cbn [omap list_omap]. fold (omap f l) (omap f (filter (λ y, y ≠ x) l)).
    by rewrite IH.
Qed.

(** X7: a stored record whose bytes cannot be decoded: [GetProduct] reports the
    decoding error, while a listing on the scan path lists as if the key of
    that record were not among the keys: it is the page of the records that
    are stored under the other keys, can be decoded and pass the filter.
    It returns no error, it returns a page whenever
    [(page - 1) * pageSize] fits an [int32], and it logs a warning. *)
Theorem undecodable_record (r : RedisRepository) (id data : string)
    (cause : error) (page pageSize : Z) (category searchQuery : string)
    (w : World) :
  served w →
  redis w !! keyFor id = Some data →
  Unmarshal data = inl cause →
  eval (GetProduct id) w = Err (Wrapf "failed to unmarshal product: " cause)
  ∧ (nonempty searchQuery && useIndex r = false →
     eval (ListProducts r page pageSize category searchQuery) w
     = ListProducts_page
         (filter (λ p, passes category searchQuery p = true)
            (omap (stored_record (redis w))
               (filter (λ key, key ≠ keyFor id)
                  (keys_matching productsKeyPrefix (redis w)))))
         page pageSize
     ∧ (∀ err, eval (ListProducts r page pageSize category searchQuery) w
               ≠ Err err)
     ∧ (1 ≤ page → 1 ≤ pageSize → (page - 1) * pageSize < 2 ^ 31 →
        ∃ products total,
          eval (ListProducts r page pageSize category searchQuery) w
          = Ok (products, total)
          ∧ ∀ p, p ∈ products →
                 ∃ key, key ≠ keyFor id
                        ∧ stored_record (redis w) key = Some p)
     ∧ Log LWarn "Failed to unmarshal product"
       ∈ trace (exec (ListProducts r page pageSize category searchQuery) w)).
Proof.
  intros Hs Hdata Hu. split.
  - unfold GetProduct, eval. rewrite !bind_run.
    set (w0 := exec (emit _) w).
    destruct (served_redis_Get (keyFor id) w0 Hs) as (-> & _).
    change (redis w0) with (redis w). by rewrite Hdata, Hu.
  - intros Hscan.
    assert (Hnone : stored_record (redis w) (keyFor id) = None)
      by (unfold stored_record; by rewrite Hdata, Hu).
    assert (Hval : eval (ListProducts r page pageSize category searchQuery) w
              = ListProducts_page
                  (filter (λ p, passes category searchQuery p = true)
                     (omap (stored_record (redis w))
                        (filter (λ key, key ≠ keyFor id)
                           (keys_matching productsKeyPrefix (redis w)))))
                  page pageSize).
    { rewrite (ListProducts_scan_eval r page pageSize category searchQuery w
                 Hscan Hs).
      by rewrite (omap_without _ _ _ Hnone). }
    split; [exact Hval|]. split; [|split].
    + intros err. rewrite Hval. apply ListProducts_page_no_error.
    + intros Hp Hz Hfit. rewrite Hval.
      destruct (ListProducts_page_bounded
                  (filter (λ p, passes category searchQuery p = true)
                     (omap (stored_record (redis w))
                        (filter (λ key, key ≠ keyFor id)
                           (keys_matching productsKeyPrefix (redis w)))))
                  page pageSize Hp Hz Hfit)
        as (products & total & Hpage & _).
      exists products, total. split; [exact Hpage|].
      intros p Hin.
      apply ListProducts_page_members in Hpage as [Hsub _].
      apply Hsub, list_elem_of_filter in Hin as [_ Hin].
      apply list_elem_of_omap in Hin as (key & Hkey & Hrec).
      apply list_elem_of_filter in Hkey as [Hne _]. by exists key.
    + unfold ListProducts, exec. rewrite bind_run, Hscan, bind_run.
      set (w0 := exec (emit _) w).
      destruct (served_redis_Keys productsKeyPrefix w0 Hs) as (-> & Hs1 & Hr1).
      rewrite bind_run. unfold ret. cbn [snd].
      eapply scan_filter_logs_undecodable; [done| |by rewrite Hr1|done].
      apply elem_of_keys_matching. split; [by eexists|apply keyFor_prefix].
Qed.

End Corrupt.

(** A store with the mug under "product:42" and, under "product:43",
    bytes that are no encoding of a product. *)
Lemma undecodable_record_witness :
  let w := calm (<["product:43" := strokes 99]> mug_only) in
  eval (GetProduct (H:=lib0) "43") w
  = Err (Wrapf "failed to unmarshal product: "
           (Foreign "json: cannot unmarshal"))
  ∧ eval (ListProducts (H:=lib0) withoutIndex 1 10 "" "") w = Ok ([mug], 1).
Proof.
  intros w.
  assert (Hlist : eval (ListProducts (H:=lib0) withoutIndex 1 10 "" "") w
                  = Ok ([mug], 1)) by (vm_compute; reflexivity).
  assert (Hdata : redis w !! keyFor "43" = Some (strokes 99))
    by (vm_compute; reflexivity).
  assert (Hu : Unmarshal (GoLib:=lib0) (strokes 99)
               = inl (Foreign "json: cannot unmarshal"))
    by (vm_compute; reflexivity).
  pose proof (@undecodable_record lib0 withoutIndex "43" (strokes 99)
                (Foreign "json: cannot unmarshal") 1 10 "" "" w
                (calm_served _) Hdata Hu) as [Hget _].
  split; [exact Hget|exact Hlist].
Defined.

(** ** The IDs that the clock gives *)

Section Creating.
Context `{GoLib}.
Variable r : RedisRepository.

(** X8: two records created one after the other without an ID get the decimal
    nanoseconds of the clock as IDs.  When the two readings differ, so do
    the IDs and the first record stays as it was stored; when they are the
    same, the second record takes the ID, and the place in the store, of the
    first. *)
Theorem clock_ids_collide_with_the_clock (p1 p2 p1' p2' : Product)
    (w w1 w2 : World) :
  ID p1 = "" → ID p2 = "" →
  CreateProduct r p1 w = ((p1', None), w1) →
  CreateProduct r p2 w1 = ((p2', None), w2) →
  ID p1' = pretty (UnixNano (clock w (ticks w)))
  ∧ ID p2' = pretty (UnixNano (clock w1 (ticks w1)))
  ∧ (clock w (ticks w) ≠ clock w1 (ticks w1) →
     ID p1' ≠ ID p2'
     ∧ redis w2 !! keyFor (ID p1') = redis w1 !! keyFor (ID p1'))
  ∧ (clock w (ticks w) = clock w1 (ticks w1) →
     ID p2' = ID p1'
     ∧ ∃ data, Marshal p2' = inr data
               ∧ redis w2 !! keyFor (ID p1') = Some data).
Proof.
  intros Hid1 Hid2 Hrun1 Hrun2.
  assert (Hstamp : ∀ p w0 p' w0',
            ID p = "" → CreateProduct r p w0 = ((p', None), w0') →
            ID p' = pretty (UnixNano (clock w0 (ticks w0)))).
  { intros p w0 p' w0' Hid Hrun.
    destruct (CreateProduct_result r p w0) as [Hev _].
    unfold eval in Hev. rewrite Hrun in Hev. cbn [fst] in Hev.
    injection Hev as -> _. unfold stamped.
    rewrite bool_decide_eq_true_2 by done. by destruct (IsZero _). }
  pose proof (Hstamp _ _ _ _ Hid1 Hrun1) as Hi1.
  pose proof (Hstamp _ _ _ _ Hid2 Hrun2) as Hi2.
  apply CreateProduct_spec in Hrun2 as [_ (data & Hm & Hredis & _)].
  split; [done|]. split; [done|]. split.
  - intros Hne.
    assert (Hids : ID p1' ≠ ID p2').
    { rewrite Hi1, Hi2. intros Heq. by apply (inj pretty) in Heq. }
    split; [done|]. rewrite Hredis, lookup_insert_ne; [done|].
    intros Heq. by apply keyFor_inj in Heq.
  - intros Heq. assert (Hids : ID p2' = ID p1') by by rewrite Hi1, Hi2, Heq.
    split; [done|]. exists data. split; [done|].
    by rewrite Hredis, <- Hids, lookup_insert_eq.
Qed.

End Creating.

(** Two records created while the clock stands at [t0]. *)
Lemma clock_ids_collide_with_the_clock_witness :
  let first := CreateProduct (H:=book_lib shelf) withIndex nameless (calm ∅) in
  let second := CreateProduct (H:=book_lib shelf) withIndex nameless first.2 in
  ID second.1.1 = ID first.1.1
  ∧ ∃ data, Marshal (GoLib:=book_lib shelf) second.1.1 = inr data
            ∧ redis second.2 !! keyFor (ID first.1.1) = Some data.
Proof.
  intros first second.
  assert (H1 : CreateProduct (H:=book_lib shelf) withIndex nameless (calm ∅)
               = ((first.1.1, None), first.2)) by by vm_compute.
  assert (H2 : CreateProduct (H:=book_lib shelf) withIndex nameless first.2
               = ((second.1.1, None), second.2)) by by vm_compute.
  pose proof (@clock_ids_collide_with_the_clock (book_lib shelf) withIndex
                nameless nameless first.1.1 second.1.1 (calm ∅) first.2
                second.2 eq_refl eq_refl H1 H2) as (_ & _ & _ & Hsame).
  apply Hsame. by vm_compute.
Defined.

(** ** What seeding leaves in the store *)

Lemma base_ids_count (ids : gset string) :
  (∀ p, p ∈ seedProducts → ID p ∈ ids) → (5 ≤ size ids)%nat.
Proof.
  intros Hall.
  assert (Hsub : list_to_set (ID <$> seedProducts) ⊆ ids).
  { intros id [p [-> Hp]]%elem_of_list_to_set%list_elem_of_fmap.
    by apply Hall. }
  apply subseteq_size in Hsub.
  rewrite size_list_to_set in Hsub; [exact Hsub|].
  by apply (bool_decide_unpack _).
Qed.

Section Seeded.
Context `{GoLib}.
Variable r : RedisRepository.

Lemma CreateProduct_served p w :
  served w → served (exec (CreateProduct r p) w).
Proof.
  unfold served, CreateProduct. intros Hs.
  destruct (redis_faults w) as [|f rest] eqn:Hf.
  - crush; rewrite ?Hf; first [congruence|exact Hs].
  - apply Forall_cons in Hs as [-> Hs].
    crush; rewrite ?Hf; first [congruence|by constructor].
Qed.

Lemma CreateProduct_on_served p w data :
  served w → Marshal (stamped p w) = inr data →
  eval (CreateProduct r p) w = (stamped p w, None)
  ∧ served (exec (CreateProduct r p) w)
  ∧ redis (exec (CreateProduct r p) w)
    = <[keyFor (ID (stamped p w)) := data]> (redis w).
Proof.
  intros Hs Hm. destruct (CreateProduct_result r p w) as [Hev Hst].
  rewrite Hev, Hst, Hm, (served_hd w Hs).
  split; [done|]. split; [by apply CreateProduct_served|done].
Qed.

Lemma CreateProduct_clock p w : clock (exec (CreateProduct r p) w) = clock w.
Proof. unfold CreateProduct. crush. Qed.

Lemma seed_base_succeeds failure products existing w :
  served w →
  (∀ p, p ∈ products → ID p ≠ "" ∧ IsZero (CreatedAt p) = true) →
  (∀ p n, p ∈ products
          → ∃ data, Marshal (with_CreatedAt (clock w n) p) = inr data) →
  ∃ e', eval (seed_base r failure products existing) w = Ok e'
        ∧ served (exec (seed_base r failure products existing) w).
Proof.
  revert existing w.
  induction products as [|p rest IH]; intros existing w Hs Hids Hm.
  - by exists existing.
  - assert (Hrest : ∀ q, q ∈ rest → ID q ≠ "" ∧ IsZero (CreatedAt q) = true)
      by (intros; apply Hids; by right).
    destruct (Hids p) as [Hid Hzero]; [by left|].
    unfold eval, exec in *. cbn [seed_base]. case_bool_decide as Hin.
    { apply IH; [done..|]. intros; apply Hm; by right. }
    rewrite Hzero, bind_run.
    change (eval (let* t := time_Now in ret (with_CreatedAt t p)) w)
      with (with_CreatedAt (clock w (ticks w)) p).
    set (seed := with_CreatedAt (clock w (ticks w)) p).
    set (w1 := exec (let* t := time_Now in ret (with_CreatedAt t p)) w).
    assert (Hs1 : served w1) by done.
    assert (Hst : ∃ n, stamped seed w1 = with_CreatedAt (clock w n) p).
    { unfold stamped, seed. cbn [ID with_CreatedAt].
      rewrite bool_decide_eq_false_2 by done.
      destruct (IsZero (CreatedAt (with_CreatedAt (clock w (ticks w)) p)));
        [exists (ticks w1); reflexivity|exists (ticks w); reflexivity]. }
    destruct Hst as [n Hst].
    destruct (Hm p n) as [data Hdata]; [by left|].
    rewrite <- Hst in Hdata.
    destruct (CreateProduct_on_served seed w1 data Hs1 Hdata)
      as (Hev & Hs2 & _).
    pose proof (CreateProduct_clock seed w1) as Hclock.
    rewrite bind_run. unfold eval, exec in *. rewrite Hev.
    apply IH; [done..|]. intros q m Hq. rewrite Hclock. apply Hm. by right.
Qed.

Lemma seedProducts_blank p :
  p ∈ seedProducts → ID p ≠ "" ∧ IsZero (CreatedAt p) = true.
Proof.
  unfold seedProducts. rewrite !elem_of_cons, elem_of_nil.
  intros [->|[->|[->|[->|[->|[]]]]]]; done.
Qed.

(** X9: a store that serves every command and an encoder that takes the base
    records with the time stamps of the clock: the small seeding returns
    without error, and afterwards the store holds every base record, at
    least five records in all, and every record that it held before. *)
Theorem small_seeding_succeeds (w : World) :
  served w →
  (∀ p n, p ∈ seedProducts
          → ∃ data, Marshal (with_CreatedAt (clock w n) p) = inr data) →
  eval (Small.seedData r) w = Ok tt
  ∧ (∀ p, p ∈ seedProducts
          → is_Some (redis (exec (Small.seedData r) w) !! keyFor (ID p)))
  ∧ 5 ≤ record_count (redis (exec (Small.seedData r) w))
  ∧ preserved w (exec (Small.seedData r) w).
Proof.
  intros Hs Hm.
  assert (Hok : eval (Small.seedData r) w = Ok tt).
  { unfold Small.seedData, Small.seedData_to, eval. rewrite bind_run.
    destruct (served_redis_Keys productsKeyPrefix w Hs) as (-> & Hs1 & Hr1).
    set (w1 := exec (redis_Keys productsKeyPrefix) w) in *.
    rewrite foldl_ids, (right_id_L ∅ (∪)). fold (product_ids (redis w)).
    rewrite <- Hr1, bind_run.
    assert (Hclock : clock w1 = clock w).
    { unfold w1, exec, redis_Keys. crush. }
    assert (Hm1 : ∀ p n, p ∈ seedProducts
                  → ∃ data, Marshal (with_CreatedAt (clock w1 n) p) = inr data)
      by (intros p n; rewrite Hclock; apply Hm).
    destruct (seed_base_succeeds "failed to seed product " seedProducts
                (product_ids (redis w1)) w1 Hs1 seedProducts_blank Hm1)
      as (e' & He' & _).
    unfold eval, exec in *.
    destruct (seed_base r "failed to seed product " seedProducts
                (product_ids (redis w1)) w1) as [res w2] eqn:Hb.
    cbn [fst snd] in *. subst res.
    apply seed_base_inv in Hb as [_ Hb]; [|apply seedProducts_ids|done].
    destruct (Hb e' eq_refl) as [-> Hbase].
    pose proof (base_ids_count _ Hbase) as Hfive.
    replace (Z.to_nat (Small.minSeedProducts
                       - Z.of_nat (size (product_ids (redis w2))))) with 0%nat
      by (unfold Small.minSeedProducts; lia).
    done. }
  split; [exact Hok|]. unfold eval, exec in *.
  destruct (Small.seedData r w) as [res w'] eqn:Hrun.
  cbn [fst snd] in *. subst res.
  apply small_seedData_ok in Hrun as (Hpres & Hbase & _).
  split; [|split; [|done]].
  - intros p Hp. by apply elem_of_product_ids, Hbase.
  - unfold record_count. pose proof (base_ids_count _ Hbase). lia.
Qed.

End Seeded.

(** The small seeding of a store of five records of the callers. *)
Lemma small_seeding_succeeds_witness :
  eval (Small.seedData (H:=lib0) withoutIndex) (calm five_foreign) = Ok tt
  ∧ 5 ≤ record_count
          (redis (exec (Small.seedData (H:=lib0) withoutIndex)
                    (calm five_foreign))).
Proof.
  destruct (@small_seeding_succeeds lib0 withoutIndex (calm five_foreign)
              (calm_served _)) as (Hok & _ & Hfive & _); [|by split].
  intros p n. unfold seedProducts. rewrite !elem_of_cons, elem_of_nil.
  intros [->|[->|[->|[->|[->|[]]]]]]; eexists; by vm_compute.
Defined.

(** ** The handlers of the server *)




Section ServerProps.
Context `{GoLib}.
Variable repo : RedisRepository.
Variable Format : Time → string.

(** What a listing of the repository can give. *)
Lemma ListProducts_outcome page pageSize c q w :
  (∃ err, eval (ListProducts repo page pageSize c q) w = Err err)
  ∨ (nonempty q && useIndex repo = true
     ∧ ∃ products total,
         eval (ListProducts repo page pageSize c q) w = Ok (products, total))
  ∨ (nonempty q && useIndex repo = false
     ∧ ∃ filtered,
         eval (ListProducts repo page pageSize c q) w
         = ListProducts_page filtered page pageSize).
Proof.
  unfold ListProducts, eval. rewrite bind_run.
  destruct (nonempty q && useIndex repo) eqn:Hpath.
  - rewrite bind_run.
    destruct (eval (search_Search _ _ _ _ _) _) as [err|[docs total]].
    + left. by eexists.
    + right; left. split; [done|]. rewrite bind_run. by eexists _, _.
  - rewrite bind_run.
    destruct (eval (redis_Keys _) _) as [err|keys].
    + left. by eexists.
    + right; right. split; [done|]. rewrite bind_run. by eexists.
Qed.

(** X10: a request for a page up to 21474837, the last one for which
    [(page - 1) * 100] fits an [int32]: the handler does not panic; it
    answers with the page number and the page size brought into range, the
    page number at least 1 and the page size from 1 to 100, those of the
    request when they are in range; off the index the answer holds no more
    products than the page size; and a refusal has the code Internal. *)
Theorem server_ListProducts_in_bounds (req : proto.ListProductsRequest)
    (s : ServerWorld) :
  proto.lreq_Page req ≤ 21474837 →
  match (server.ListProducts repo Format req s).1 with
  | Reply resp =>
      1 ≤ proto.lres_Page resp
      ∧ (1 ≤ proto.lreq_Page req → proto.lres_Page resp = proto.lreq_Page req)
      ∧ 1 ≤ proto.lres_PageSize resp ≤ 100
      ∧ (1 ≤ proto.lreq_PageSize req ≤ 100
         → proto.lres_PageSize resp = proto.lreq_PageSize req)
      ∧ (nonempty (proto.lreq_SearchQuery req) && useIndex repo = false
         → Z.of_nat (length (proto.lres_Products resp))
           ≤ proto.lres_PageSize resp)
  | Refused st => status_code st = Internal
  | Crashed _ | NoReply => False
  end.
Proof.
  intros Hpage. unfold server.ListProducts, server.call.
  set (page := if bool_decide (proto.lreq_Page req ≤ 0) then 1
               else proto.lreq_Page req).
  set (size0 := if bool_decide (proto.lreq_PageSize req ≤ 0) then 10
                else proto.lreq_PageSize req).
  set (size := if bool_decide (100 < size0) then 100 else size0).
  assert (Hp : 1 ≤ page ≤ 21474837)
    by (unfold page; case_bool_decide; lia).
  assert (Hp' : 1 ≤ proto.lreq_Page req → page = proto.lreq_Page req)
    by (unfold page; case_bool_decide; lia).
  assert (Hz : 1 ≤ size ≤ 100)
    by (unfold size, size0; repeat case_bool_decide; lia).
  assert (Hz' : 1 ≤ proto.lreq_PageSize req ≤ 100
                → size = proto.lreq_PageSize req)
    by (unfold size, size0; repeat case_bool_decide; lia).
  pose proof (ListProducts_outcome page size (proto.lreq_Category req)
                (proto.lreq_SearchQuery req) (world s)) as Hout.
  unfold eval in Hout.
  destruct (ListProducts repo page size _ _ (world s)) as [listed w'].
  cbn [fst] in *.
  destruct Hout as [[err ->]|[[Hidx (products & total & ->)]
                             |[Hscan (filtered & ->)]]].
  - done.
  - cbn [fst proto.lres_Page proto.lres_PageSize proto.lres_Products].
    rewrite Hidx. repeat split; first [lia|done|auto].
  - destruct (ListProducts_page_bounded filtered page size)
      as (products & total & -> & Hlen); [lia|lia|nia|].
    cbn [fst proto.lres_Page proto.lres_PageSize proto.lres_Products].
    rewrite length_fmap. repeat split; first [lia|done|auto].
Qed.

End ServerProps.

(** A request for page 0 with page size 500 of a store of one record. *)
Lemma server_ListProducts_in_bounds_witness :
  ∃ resp,
    (server.ListProducts (H:=lib0) withoutIndex plain_Format
       (proto.mkListProductsRequest 0 500 "" "")
       (mkServerWorld (calm mug_only) [])).1 = Reply resp
    ∧ proto.lres_Page resp = 1 ∧ proto.lres_PageSize resp = 100
    ∧ Z.of_nat (length (proto.lres_Products resp)) ≤ 100.
Proof.
  assert (Hrun : ∃ resp,
            (server.ListProducts (H:=lib0) withoutIndex plain_Format
               (proto.mkListProductsRequest 0 500 "" "")
               (mkServerWorld (calm mug_only) [])).1 = Reply resp
            ∧ proto.lres_Page resp = 1 ∧ proto.lres_PageSize resp = 100).
  { exists (proto.mkListProductsResponse
              [server.toProto plain_Format mug] 1 1 100).
    split; [vm_compute; reflexivity|split; reflexivity]. }
  destruct Hrun as (resp & Hrun & Hp & Hz). exists resp.
  pose proof (@server_ListProducts_in_bounds lib0 withoutIndex plain_Format
                (proto.mkListProductsRequest 0 500 "" "")
                (mkServerWorld (calm mug_only) [])) as Hb.
  rewrite Hrun in Hb.
  destruct Hb as (_ & _ & _ & _ & Hlen); [simpl; lia|].
  split; [exact Hrun|]. split; [exact Hp|]. split; [exact Hz|].
  rewrite <- Hz. apply Hlen. reflexivity.
Defined.

Section ServerRecords.
Context `{GoLib}.
Variable repo : RedisRepository.
Variable Format : Time → string.

(** What a read of the repository can give. *)
Lemma GetProduct_outcome id w :
  (∃ p, eval (GetProduct id) w = Ok p
        ∧ stored_record (redis w) (keyFor id) = Some p)
  ∨ (∃ err, eval (GetProduct id) w = Err err).
Proof.
  destruct (eval (GetProduct id) w) as [p|err|msg|] eqn:Hget.
  - left. exists p. split; [done|]. unfold eval in Hget.
    destruct (GetProduct id w) as [res w'] eqn:Hrun. cbn [fst] in Hget.
    subst res. apply GetProduct_Ok in Hrun as (data & Hdata & Hu & _).
    unfold stored_record. by rewrite Hdata, Hu.
  - right. by eexists.
  - exfalso. revert Hget. unfold GetProduct. crush.
  - exfalso. revert Hget. unfold GetProduct. crush.
Qed.


(** X11: the handler of GetProduct: a request without an ID is refused as
    InvalidArgument before the repository is called; otherwise the answer
    is the stored record, and every failure of the repository, a missing
    record as much as a failed read or bytes that cannot be decoded, is
    refused as NotFound and logged; the store is never changed. *)
Theorem server_GetProduct_status (req : proto.GetProductRequest)
    (s : ServerWorld) :
  (proto.greq_Id req = ""
   → server.GetProduct Format req s
     = (Refused (mkStatus InvalidArgument "product id is required"), s))
  ∧ (proto.greq_Id req ≠ ""
     → match (server.GetProduct Format req s).1 with
       | Reply msg =>
           ∃ p, stored_record (redis (world s)) (keyFor (proto.greq_Id req))
                = Some p
                ∧ msg = server.toProto Format p
       | Refused st =>
           status_code st = NotFound
           ∧ error_log (server.GetProduct Format req s).2
             = "Failed to get product" :: error_log s
       | Crashed _ | NoReply => False
       end)
  ∧ (∀ cause,
       proto.greq_Id req ≠ "" →
       hd None (redis_faults (world s)) = Some cause →
       errors_Is cause redis_Nil = false →
       (server.GetProduct Format req s).1
       = Refused (mkStatus NotFound
                    ("product not found: "
                     +:+ ("failed to get product: " +:+ Error cause))))
  ∧ redis (world (server.GetProduct Format req s).2) = redis (world s).
Proof.
  unfold server.GetProduct, server.call.
  pose proof (GetProduct_outcome (proto.greq_Id req) (world s)) as Hout.
  pose proof (GetProduct_quiet (proto.greq_Id req) (world s)) as [Hredis _].
  split; [|split; [|split]].
  - intros ->. done.
  - intros Hid. rewrite bool_decide_eq_false_2 by done.
    unfold eval in Hout.
    destruct (GetProduct (proto.greq_Id req) (world s)) as [got w'].
    cbn [fst] in Hout.
    destruct Hout as [(p & -> & Hp)|[err ->]]; cbn [fst snd]; [|done].
    by exists p.
  - intros cause Hid Hfault Hnil. rewrite bool_decide_eq_false_2 by done.
    assert (Hget : eval (GetProduct (proto.greq_Id req)) (world s)
                   = Err (Wrapf "failed to get product: " cause)).
    { destruct (redis_faults (world s)) as [|f rest] eqn:Hf; [done|].
      simpl in Hfault. subst f.
      by eapply GetProduct_read_failure. }
    unfold eval in Hget.
    destruct (GetProduct (proto.greq_Id req) (world s)) as [got w'].
    cbn [fst] in Hget. subst got. done.
  - case_bool_decide; [done|]. unfold exec in Hredis.
    destruct (GetProduct (proto.greq_Id req) (world s)) as [got w'].
    cbn [snd] in Hredis. by destruct got.
Qed.

(** The record that the handler of CreateProduct hands to the repository. *)
Lemma stamped_new name description price category stock w :
  stamped (mkProduct "" name description price category stock zeroTime) w
  = mkProduct (pretty (UnixNano (clock w (ticks w)))) name description price
      category stock (clock w (S (ticks w))).
Proof. done. Qed.


(** X13: the handler of CreateProduct refuses a request without a name or with
    a price below zero as InvalidArgument and leaves the world as it was;
    whatever the request, it changes the store at most under the key of
    the ID that it takes from the clock, so that a client cannot choose
    the record it writes; and a refusal for another reason has the code
    Internal and is logged. *)
Theorem server_CreateProduct_validation (req : proto.CreateProductRequest)
    (s : ServerWorld) :
  (proto.creq_Name req = ""
   ∨ f64_lt (proto.creq_Price req) (f64_of_int 0) = true
   → ∃ text, server.CreateProduct repo Format req s
             = (Refused (mkStatus InvalidArgument text), s))
  ∧ (∀ key,
       key ≠ keyFor (pretty (UnixNano (clock (world s) (ticks (world s))))) →
       redis (world (server.CreateProduct repo Format req s).2) !! key
       = redis (world s) !! key)
  ∧ (∀ st,
       (server.CreateProduct repo Format req s).1 = Refused st →
       proto.creq_Name req ≠ "" →
       f64_lt (proto.creq_Price req) (f64_of_int 0) = false →
       status_code st = Internal
       ∧ error_log (server.CreateProduct repo Format req s).2
         = "Failed to create product" :: error_log s).
Proof.
  unfold server.CreateProduct, server.call.
  split; [|split].
  - intros [Hname|Hprice].
    + rewrite bool_decide_eq_true_2 by done. by eexists.
    + case_bool_decide; [by eexists|]. rewrite Hprice. by eexists.
  - intros key Hkey. case_bool_decide; [done|].
    destruct (f64_lt _ _); [done|].
    set (product := mkProduct "" _ _ _ _ _ _).
    destruct (CreateProduct_result repo product (world s)) as [_ Hst].
    unfold exec in Hst.
    destruct (CreateProduct repo product (world s)) as [[created e] w1].
    cbn [snd] in Hst.
    assert (Hw : redis w1 !! key = redis (world s) !! key).
    { rewrite Hst. unfold product. rewrite stamped_new. cbn [ID].
      destruct (Marshal _); [done|].
      destruct (hd None _); [done|]. by rewrite lookup_insert_ne. }
    by destruct e.
  - intros st Hrefused Hname Hprice. revert Hrefused.
    rewrite bool_decide_eq_false_2 by done. rewrite Hprice.
    destruct (CreateProduct repo _ (world s)) as [[created e] w1].
    destruct e; [|done]. cbn [fst snd]. by intros [= <-].
Qed.

End ServerRecords.


(** ** How far the large seeding goes *)

Section LargeTarget.
Context `{GoLib}.
Variable r : RedisRepository.

Lemma seed_base_size failure products existing w e' :
  eval (seed_base r failure products existing) w = Ok e' →
  (size existing ≤ size e' ≤ size existing + length products)%nat.
Proof.
  revert existing w. induction products as [|p rest IH]; intros existing w.
  - unfold eval. cbn. intros [= <-]. lia.
  - unfold eval in *. cbn [seed_base length]. case_bool_decide as Hin.
    { intros Hrun. apply IH in Hrun. lia. }
    rewrite !bind_run.
    destruct (eval (CreateProduct r _) _) as [seed [err|]]; [done|].
    intros Hrun. apply IH in Hrun.
    assert (size ({[ID seed]} ∪ existing) ≤ S (size existing))%nat.
    { rewrite size_union_alt, size_singleton.
      assert (size (existing ∖ {[ID seed]}) ≤ size existing)%nat
        by (apply subseteq_size, subseteq_difference_l; done).
      lia. }
    assert (size existing ≤ size ({[ID seed]} ∪ existing))%nat
      by apply subseteq_size, union_subseteq_r.
    lia.
Qed.

Lemma seed_generate_size target ds existing w e' :
  eval (Large.seed_generate r target ds existing) w = Ok e' →
  Z.of_nat (size e') = Z.max target (Z.of_nat (size existing)).
Proof.
  revert existing w. induction ds as [|d rest IH]; intros existing w.
  - unfold eval. cbn [Large.seed_generate]. case_bool_decide; [|done].
    cbn. intros [= <-]. lia.
  - unfold eval in *. cbn [Large.seed_generate]. case_bool_decide as Hfull.
    { cbn. intros [= <-]. lia. }
    rewrite bind_run. case_bool_decide as Hin.
    { intros Hrun. by apply IH in Hrun. }
    rewrite !bind_run.
    destruct (eval (CreateProduct r _) _) as [seed [err|]]; [done|].
    rewrite bind_run. intros Hrun. apply IH in Hrun. rewrite Hrun.
    rewrite size_union by by apply disjoint_singleton_l. rewrite size_singleton. lia.
Qed.

(** X14: when the large seeding returns without error, the store holds at least
    [target] records, at least as many as before, and no more than [target]
    unless it held at least [target - 5] before: the seeding stops at the
    target and goes past it by the base records at most. *)
Theorem large_seeding_stops_at_target (target : Z) (w w' : World) :
  Large.seedData_to r target w = (Ok tt, w') →
  target ≤ record_count (redis w')
  ∧ record_count (redis w) ≤ record_count (redis w')
  ∧ record_count (redis w') ≤ Z.max target (record_count (redis w) + 5).
Proof.
  unfold record_count, Large.seedData_to. rewrite bind_run.
  unfold eval, exec.
  destruct (Large.collectExistingProductIDs w) as [res0 w1] eqn:Hc.
  apply collectExistingProductIDs_run in Hc as [[Hq _] Hok]. cbn [fst snd].
  destruct res0 as [existing| | |]; [|unfold ret; intros [=]..].
  rewrite (Hok _ eq_refl). clear Hok existing.
  case_bool_decide as Hfull.
  { unfold bind, log, emit, ret. simpl. intros [= <-]. simpl.
    rewrite Hq in *. lia. }
  rewrite bind_run.
  pose proof (seed_base_size "failed to seed base product " seedProducts
                (product_ids (redis w)) w1) as Hsize1.
  unfold eval, exec in *.
  destruct (seed_base r _ seedProducts _ w1) as [res1 w2] eqn:Hb.
  apply seed_base_inv in Hb as [_ Hok];
    [|apply seedProducts_ids|by rewrite Hq].
  cbn [fst snd] in *. destruct res1 as [existing| | |]; [|unfold ret; intros [=]..].
  destruct (Hok _ eq_refl) as [-> _]. clear Hok.
  specialize (Hsize1 _ eq_refl). change (length seedProducts) with 5%nat in Hsize1.
  case_bool_decide as Hfull2.
  { unfold bind, log, emit, ret. simpl. intros [= <-]. simpl. lia. }
  unfold bind at 1, time_Now at 1. rewrite bind_run. unfold eval, exec.
  match goal with
  | |- context [Large.seed_generate r target ?ds ?e ?w0] =>
      pose proof (seed_generate_size target ds e w0) as Hsize2;
      unfold eval, exec in *;
      destruct (Large.seed_generate r target ds e w0) as [res2 w3] eqn:Hg
  end.
  apply seed_generate_inv in Hg as [_ Hok]; [|done].
  cbn [fst snd] in *. destruct res2 as [existing| | |]; [|unfold ret; intros [=]..].
  destruct (Hok _ eq_refl) as [-> _]. specialize (Hsize2 _ eq_refl).
  unfold bind, log, emit, ret. simpl. intros [= <-]. simpl. lia.
Qed.

End LargeTarget.

(** The large seeding with target 7 of a store of five records of the
    callers: it writes the five base records and stops. *)
Lemma large_seeding_stops_at_target_witness :
  let w' := exec (Large.seedData_to (H:=lib0) withoutIndex 7)
              (calm five_foreign) in
  7 ≤ record_count (redis w') ∧ record_count (redis w') ≤ 10.
Proof.
  intros w'.
  assert (Hrun : Large.seedData_to (H:=lib0) withoutIndex 7 (calm five_foreign)
                 = (Ok tt, w')) by (vm_compute; reflexivity).
  assert (Hbefore : record_count (redis (calm five_foreign)) = 5)
    by (vm_compute; reflexivity).
  pose proof (@large_seeding_stops_at_target lib0 withoutIndex 7
                (calm five_foreign) w' Hrun) as (Hlo & _ & Hhi).
  rewrite Hbefore in Hhi. split; [exact Hlo|]. lia.
Defined.

(** ** The start of the repository *)

Lemma createIndex_run r w :
  eval (createIndex r) w = None
  ∧ redis_faults (exec (createIndex r) w) = redis_faults w
  ∧ redis (exec (createIndex r) w) = redis w
  ∧ clock (exec (createIndex r) w) = clock w.
Proof. unfold createIndex, search_CreateIndex. crush. Qed.

Ltac start_cases Hx :=
  repeat match type of Hx with
         | context [match ?t with _ => _ end] => destruct t eqn:?; simpl in Hx
         end;
  simplify_eq/=; done.

Section Start.
Variable seedData verifySeedData : RedisRepository → M (result unit).

(** X15: the constructor fails only when the ping fails, with the error of the
    ping wrapped and before anything else is sent: an error of the search
    detection, of the index creation, of the seeding or of the verification
    does not fail it.  The repository it returns has the default index
    name, and has the search enabled exactly when the command after the
    ping, FT._LIST, succeeded; it then has an index client, and none
    otherwise. *)
Theorem NewRedisRepository_outcome (addr : string) (w : World) :
  (∀ cause,
     hd None (redis_faults w) = Some cause →
     NewRedisRepository seedData verifySeedData addr w
     = (Err (Wrapf "failed to connect to redis: " cause),
        set_redis_faults (tl (redis_faults w)) w))
  ∧ (∀ err,
       eval (NewRedisRepository seedData verifySeedData addr) w = Err err →
       ∃ cause, hd None (redis_faults w) = Some cause
                ∧ err = Wrapf "failed to connect to redis: " cause)
  ∧ (∀ repo,
       eval (NewRedisRepository seedData verifySeedData addr) w = Ok repo →
       indexName repo = defaultIndexName
       ∧ useIndex repo = searchEnabled repo
       ∧ search repo = (if searchEnabled repo then Some addr else None)
       ∧ (searchEnabled repo = true ↔ hd None (tl (redis_faults w)) = None)).
Proof.
  unfold NewRedisRepository, redis_Ping, detectRediSearch, redis_Do,
    createIndex, search_CreateIndex.
  prim.
  destruct (redis_faults w) as [|[cause|] rest] eqn:Hf; cbn [hd tl].
  - split; [done|]. simpl. rewrite Hf. simpl.
    split; intros x Hx; start_cases Hx.
  - split; [by intros ? [= <-]|]. simpl.
    split; [intros err [= <-]; by eexists|done].
  - split; [done|].
    destruct rest as [|[cause2|] rest2]; simpl.
    all: split; intros x Hx; start_cases Hx.
Qed.

End Start.

Lemma next_fault_clock w : clock (exec next_fault w) = clock w.
Proof. unfold next_fault, exec. by case_match. Qed.

Section SmallStart.
Context `{GoLib}.

(** The small verification returns, with or without an error, and writes
    nothing. *)
Lemma small_verifySeedData_returns r w :
  ((∃ u, eval (Small.verifySeedData r) w = Ok u)
   ∨ (∃ err, eval (Small.verifySeedData r) w = Err err))
  ∧ redis (exec (Small.verifySeedData r) w) = redis w.
Proof.
  unfold Small.verifySeedData, Small.verifySeedData_to.
  change (wrap32 Small.minSeedProducts) with 5.
  pose proof (ListProducts_outcome r 1 5 "" "" w) as Hout.
  pose proof (ListProducts_quiet r 1 5 "" "" w) as [Hq _].
  unfold eval, exec in *. rewrite bind_run. unfold eval, exec.
  destruct (ListProducts r 1 5 "" "" w) as [listed w1]. cbn [fst snd] in *.
  destruct Hout as [[err ->]|[[Hidx _]|[_ [filtered ->]]]].
  - split; [right; by eexists|done].
  - done.
  - destruct (ListProducts_page_bounded filtered 1 5)
      as (products & total & -> & _); [lia..|].
    repeat case_bool_decide; cbn; (split; [|done]);
      first [left; by eexists|right; by eexists].
Qed.

(** X16: the start of the small revision against a store that serves every
    command, with an encoder that takes the base records with the time
    stamps of the clock: the constructor returns a repository with the
    search enabled, and the store then holds every base record, at least
    five records in all, and every record that it held before. *)
Theorem small_start_seeds (addr : string) (w : World) :
  served w →
  (∀ p n, p ∈ seedProducts
          → ∃ data, Marshal (with_CreatedAt (clock w n) p) = inr data) →
  eval (NewRedisRepository Small.seedData Small.verifySeedData addr) w
  = Ok (mkRepo (Some addr) defaultIndexName true)
  ∧ (∀ p, p ∈ seedProducts
          → is_Some (redis (exec (NewRedisRepository Small.seedData
                                    Small.verifySeedData addr) w)
                     !! keyFor (ID p)))
  ∧ 5 ≤ record_count
          (redis (exec (NewRedisRepository Small.seedData
                          Small.verifySeedData addr) w))
  ∧ preserved w (exec (NewRedisRepository Small.seedData
                         Small.verifySeedData addr) w).
Proof.
  intros Hs Hm.
  set (repo := mkRepo (Some addr) defaultIndexName true).
  unfold eval, exec.
  destruct (NewRedisRepository _ _ addr w) as [res w'] eqn:Hrun.
  cbn [fst snd].
  unfold NewRedisRepository, redis_Ping, detectRediSearch, redis_Do in Hrun.
  rewrite bind_run in Hrun.
  destruct (served_next_fault w Hs) as (Hn1 & Hs1 & Hr1 & _).
  pose proof (next_fault_clock w) as Hc1.
  rewrite Hn1 in Hrun. set (w1 := exec next_fault w) in *.
  rewrite bind_run in Hrun.
  destruct (served_next_fault w1 Hs1) as (Hn2 & Hs2 & Hr2 & _).
  pose proof (next_fault_clock w1) as Hc2.
  rewrite Hn2 in Hrun. set (w2 := exec next_fault w1) in *.
  rewrite bind_run in Hrun.
  change (eval (ret (mkRepo (Some addr) defaultIndexName true)) w2)
    with repo in Hrun.
  change (exec (ret (mkRepo (Some addr) defaultIndexName true)) w2)
    with w2 in Hrun.
  rewrite bind_run in Hrun.
  destruct (createIndex_run repo w2) as (Hn3 & Hf3 & Hr3 & Hc3).
  rewrite Hn3 in Hrun. set (w3 := exec (createIndex repo) w2) in *.
  assert (Hs3 : served w3) by (unfold served; by rewrite Hf3).
  rewrite bind_run in Hrun.
  change (exec (ret tt) w3) with w3 in Hrun.
  rewrite bind_run in Hrun.
  assert (Hm3 : ∀ p n, p ∈ seedProducts
                → ∃ data, Marshal (with_CreatedAt (clock w3 n) p) = inr data)
    by (intros p n; rewrite Hc3, Hc2, Hc1; apply Hm).
  destruct (small_seeding_succeeds repo w3 Hs3 Hm3)
    as (Hn4 & Hbase & Hfive & Hpres).
  rewrite Hn4 in Hrun. set (w4 := exec (Small.seedData repo) w3) in *.
  rewrite bind_run in Hrun.
  change (exec (ret tt) w4) with w4 in Hrun.
  rewrite bind_run in Hrun.
  destruct (small_verifySeedData_returns repo w4) as [Hv Hr5].
  unfold eval, exec in Hv, Hr5, Hrun.
  destruct (Small.verifySeedData repo w4) as [verified w5].
  cbn [fst snd] in *.
  assert (Hp04 : preserved w w4).
  { intros k v Hk. apply Hpres. by rewrite Hr3, Hr2, Hr1. }
  assert (Hw' : res = Ok repo ∧ redis w' = redis w4).
  { destruct Hv as [[u ->]|[err ->]].
    - unfold ret in Hrun. by simplify_eq.
    - rewrite bind_run in Hrun. unfold ret, log, emit, exec in Hrun.
      cbn [fst snd] in Hrun. by simplify_eq. }
  destruct Hw' as [-> Hw']. rewrite Hw'.
  split; [done|]. split; [done|]. split; [done|].
  intros k v Hk. rewrite Hw'. by apply Hp04.
Qed.

End SmallStart.

(** The start against an empty store. *)
Lemma small_start_seeds_witness :
  eval (NewRedisRepository (Small.seedData (H:=lib0))
          (Small.verifySeedData (H:=lib0)) "localhost:6379") (calm ∅)
  = Ok withIndex
  ∧ 5 ≤ record_count
          (redis (exec (NewRedisRepository (Small.seedData (H:=lib0))
                          (Small.verifySeedData (H:=lib0)) "localhost:6379")
                    (calm ∅))).
Proof.
  destruct (@small_start_seeds lib0 "localhost:6379" (calm ∅) (calm_served _))
    as (Hok & _ & Hfive & _); [|by split].
  intros p n. unfold seedProducts. rewrite !elem_of_cons, elem_of_nil.
  intros [->|[->|[->|[->|[->|[]]]]]]; eexists; by vm_compute.
Defined.

(** ** The keys that the small seeding writes *)

Section SmallKeys.
Context `{GoLib}.
Variable r : RedisRepository.

Lemma stamped_ID p w : ID p ≠ "" → ID (stamped p w) = ID p.
Proof.
  intros Hid. unfold stamped. rewrite bool_decide_eq_false_2 by done.
  by case_match.
Qed.

Lemma CreateProduct_other_keys p w k :
  k ≠ keyFor (ID (stamped p w)) →
  redis (exec (CreateProduct r p) w) !! k = redis w !! k.
Proof.
  intros Hk. destruct (CreateProduct_result r p w) as [_ ->].
  destruct (Marshal _); [done|]. destruct (hd None _); [done|].
  by rewrite lookup_insert_ne.
Qed.

Lemma seed_base_other_keys failure products existing w k :
  (∀ p, p ∈ products → ID p ≠ "" ∧ k ≠ keyFor (ID p)) →
  redis (exec (seed_base r failure products existing) w) !! k = redis w !! k.
Proof.
  revert existing w. induction products as [|p rest IH]; intros existing w Hk.
  - done.
  - assert (Hrest : ∀ q, q ∈ rest → ID q ≠ "" ∧ k ≠ keyFor (ID q))
      by (intros; apply Hk; by right).
    destruct (Hk p) as [Hid Hkey]; [by left|].
    unfold exec in *. cbn [seed_base]. case_bool_decide as Hin.
    { by apply IH. }
    rewrite bind_run.
    destruct (stamp_run p w) as (seed & w1 & Hstamp & Hseed & Hr1 & _).
    unfold eval, exec. rewrite Hstamp. cbn [fst snd]. rewrite bind_run.
    pose proof (CreateProduct_other_keys seed w1 k) as Hother.
    rewrite stamped_ID, Hseed in Hother by by rewrite Hseed.
    specialize (Hother Hkey). unfold eval, exec in *.
    destruct (CreateProduct r seed w1) as [[created e] w2].
    cbn [fst snd] in *. rewrite <- Hr1, <- Hother.
    destruct e; [done|]. by apply IH.
Qed.

(** X17: the small seeding changes the store under the keys of the five base
    records only: once these are in the store it holds five records, so
    that the loop that would fill it up to the minimum with generated
    records makes no round. *)
Theorem small_seeding_writes_base_only (w : World) (key : string) :
  (∀ p, p ∈ seedProducts → key ≠ keyFor (ID p)) →
  redis (exec (Small.seedData r) w) !! key = redis w !! key.
Proof.
  intros Hkey.
  assert (Hk : ∀ p, p ∈ seedProducts → ID p ≠ "" ∧ key ≠ keyFor (ID p))
    by (intros p Hp; split; [by apply seedProducts_ids|by apply Hkey]).
  unfold Small.seedData, Small.seedData_to, exec. rewrite bind_run.
  destruct (redis_Keys_run productsKeyPrefix w) as [Hkeys [Hq _]].
  set (w1 := exec (redis_Keys productsKeyPrefix) w) in *.
  destruct Hkeys as [->|[err ->]]; [|unfold ret; cbn [snd]; by rewrite Hq].
  rewrite foldl_ids, (right_id_L ∅ (∪)). fold (product_ids (redis w)).
  rewrite <- Hq, bind_run.
  pose proof (seed_base_other_keys "failed to seed product " seedProducts
                (product_ids (redis w1)) w1 key Hk) as Hother.
  unfold eval, exec in *.
  destruct (seed_base r "failed to seed product " seedProducts
              (product_ids (redis w1)) w1) as [res w2] eqn:Hb.
  cbn [fst snd] in *. rewrite <- Hother.
  apply seed_base_inv in Hb as [_ Hb]; [|apply seedProducts_ids|done].
  destruct res as [e'| | |]; [|done..].
  destruct (Hb e' eq_refl) as [-> Hbase].
  pose proof (base_ids_count _ Hbase) as Hfive.
  replace (Z.to_nat (Small.minSeedProducts
                     - Z.of_nat (size (product_ids (redis w2))))) with 0%nat
    by (unfold Small.minSeedProducts; lia).
  done.
Qed.

End SmallKeys.

(** The key of the first generated record, on an empty store. *)
Lemma small_seeding_writes_base_only_witness :
  redis (exec (Small.seedData (H:=lib0) withoutIndex) (calm ∅))
    !! "product:seed-auto-1" = None.
Proof.
  rewrite (@small_seeding_writes_base_only lib0 withoutIndex (calm ∅)
             "product:seed-auto-1"); [done|].
  intros p. unfold seedProducts. rewrite !elem_of_cons, elem_of_nil.
  intros [->|[->|[->|[->|[->|[]]]]]]; done.
Defined.
